(** * three-mesh-halfedge: the vertex merger and the halfedge store

    A shallow embedding of the core of the library: the function
    [computeVerticesIndexArray] and the class [HalfedgeDS] with its methods
    [buildFromGeometry], [loops] and [clear].  The primitive operations
    [addVertex], [addEdge], [addFace] and the generator [Halfedge.nextLoop]
    belong to other modules of the library; they are written after the
    specification.

    Numbers.  The vertex merger is written twice.
    [Js.computeVerticesIndexArray] takes the numbers of JavaScript and the
    operations on them ([*], [/], [Math.log10], [Math.pow], [Math.round], the
    template literal) as parameters, and the count of the attribute as any
    rational; what is proved of it holds of the floating point computation.
    [computeVerticesIndexArray] computes with exact rationals ([Q]) and a
    whole count; it is the former at the numbers [exactNumbers] (lemma
    [computeVerticesIndexArray_exact]) and the one the builder is run with.
    It leaves out the rounding error of the floating point operations and the
    exponent notation of the integers from [1e21] on; [doubles] are the
    numbers with the operations of IEEE 754, and the examples
    [rounded_product_of_doubles] and [merger_of_doubles_at_one_eighth] show
    where the two part.  A read outside an
    array yields [undefined], which arithmetic turns into [NaN]; both are
    modelled by [None].

    Objects.  The three collections of the store are JavaScript [Set]s, which
    iterate in insertion order.  Every entity is created by one of the
    primitive operations and added to its collection at once, so an entity is
    addressed by its position in its collection; a reference to an entity is
    that position. *)

From Stdlib Require Import ZArith QArith Qround Qreals Reals Lra Lia Psatz Ascii.
From Stdlib Require PrimFloat SpecFloat FloatOps Uint63.
From stdpp Require Import gmap strings list pretty.

Local Open Scope string_scope.
Local Open Scope list_scope.
Local Open Scope nat_scope.

(** ** Numbers and their rendering *)

(** [Math.round]: the nearest integer, a tie going towards plus infinity. *)
Definition Math_round (x : Q) : Z := Qfloor (x + (1 # 2))%Q.

(** A template literal [`${n}`] of a number that is an integer of moderate
    size prints its decimal digits, with a leading minus sign when negative;
    [NaN] prints as ["NaN"]. *)
Definition numberString (n : option Z) : string :=
  match n with
  | Some z => pretty z
  | None => "NaN"
  end.

(** The string of an array index that may be [undefined]. *)
Definition indexString (i : option nat) : string :=
  match i with
  | Some n => pretty n
  | None => "undefined"
  end.

(** ** Buffers *)

(** A position attribute: the flat array of coordinates and the number of
    items, three coordinates each.  three.js sets [count] to the length of
    the array divided by the item size when it makes the attribute; here the
    count is whole, as it is when the array is made of whole items
    ([Js.Attribute] below has any count). *)
Record BufferAttribute := {
  array : list Q;
  count : nat
}.

(** An index attribute: the flat array of position indices and their number. *)
Record IndexAttribute := {
  index_array : list nat;
  index_count : nat
}.

(** ** The vertex merger *)

(** [Math.round(positions.array[k] * shiftMultiplier)]. *)
Definition roundedComponent (positions : BufferAttribute) (shiftMultiplier : Q)
    (k : nat) : option Z :=
  (λ x, Math_round (x * shiftMultiplier)%Q) <$> array positions !! k.

(** The inner loop over [j = 0, 1, 2]: the three rendered components are
    appended to the empty string, with nothing in between. *)
Definition hashOf (positions : BufferAttribute) (shiftMultiplier : Q)
    (i : nat) : string :=
  foldl (λ hash j,
           hash +:+ numberString (roundedComponent positions shiftMultiplier (i * 3 + j)))
        "" [0; 1; 2].

(** One turn of the outer loop, on the pair of [hashMap] and [indexArray]. *)
Definition mergeStep (positions : BufferAttribute) (shiftMultiplier : Q)
    (st : gmap string nat * list nat) (i : nat) : gmap string nat * list nat :=
  let hash := hashOf positions shiftMultiplier i in
  match st.1 !! hash with
  | Some vertexIndex => (st.1, st.2 ++ [vertexIndex])
  | None => (<[hash := i]> st.1, st.2 ++ [i])
  end.

(** The loop [for (let i=0; i < positions.count; i++)], stopped after [n]
    turns. *)
Definition mergeLoop (positions : BufferAttribute) (shiftMultiplier : Q)
    (n : nat) : gmap string nat * list nat :=
  foldl (mergeStep positions shiftMultiplier) (∅, []) (seq 0 n).

(** *** The multiplier

    The source computes [decimalShift = Math.log10(1 / tolerance)] and
    [shiftMultiplier = Math.pow(10, decimalShift)].  Both functions are
    transcendental; they are written here over the real numbers. *)
Definition Math_log10 (x : R) : R := (ln x / ln 10)%R.
Definition Math_pow (b e : R) : R := Rpower b e.

Definition decimalShift (tolerance : R) : R := Math_log10 (1 / tolerance)%R.
Definition shiftMultiplier (tolerance : R) : R := Math_pow 10 (decimalShift tolerance).

(** The exact value of [shiftMultiplier] at a positive rational tolerance is
    the rational [1 / tolerance] (lemma [shiftMultiplierQ_exact] below); the
    executable model computes with it.  A tolerance that is not positive
    makes JavaScript compute with [Infinity] or [NaN], which is not
    modelled. *)
Definition shiftMultiplierQ (tolerance : Q) : Q := (1 / tolerance)%Q.

Definition computeVerticesIndexArray (positions : BufferAttribute)
    (tolerance : Q) : list nat :=
  (mergeLoop positions (shiftMultiplierQ tolerance) (count positions)).2.

(** The multiplier as the specification words it, with a ceiling. *)
Definition ceiling (x : R) : Z := (- Int_part (- x))%Z.
Definition specMultiplier (tolerance : R) : R :=
  Rpower 10 (IZR (ceiling (Math_log10 (1 / tolerance)%R))).

(** The grid cell of position [i]: its three rounded components. *)
Definition quantized (positions : BufferAttribute) (m : Q) (i : nat)
    : list (option Z) :=
  (λ j, roundedComponent positions m (i * 3 + j)) <$> [0; 1; 2].

(** Three coordinates per point, for writing inputs down. *)
Definition pointsAttribute (pts : list (Q * Q * Q)) : BufferAttribute :=
  {| array := pts ≫= (λ p, [p.1.1; p.1.2; p.2]); count := length pts |}.


(** ** Entities *)

(** A [Vector3]; a component read outside the buffer is [undefined]. *)
Record Vector3 := { x : option Q; y : option Q; z : option Q }.

(** [pos_.fromBufferAttribute(positions, index)] reads the three coordinates
    of item [index]; an [undefined] index reads nothing. *)
Definition fromBufferAttribute (positions : BufferAttribute)
    (index : option nat) : Vector3 :=
  {| x := index ≫= λ i, array positions !! (i * 3);
     y := index ≫= λ i, array positions !! (i * 3 + 1);
     z := index ≫= λ i, array positions !! (i * 3 + 2) |}.

Module Vertex.
Record t := {
  id : option nat;
  position : Vector3;
  halfedge : option nat
}.
End Vertex.

Module Halfedge.
Record t := {
  vertex : nat;
  twin : nat;
  next : option nat;
  prev : option nat;
  face : option nat
}.
End Halfedge.

Module Face.
Record t := {
  id : option nat;
  halfedge : option nat
}.
End Face.

(** What a call can throw: [new Error(message)] in the source, and the
    structural error of the primitive operations. *)
Inductive exn :=
| Error (message : string)
| NonManifoldConstructionError.

(** The name of the class of a thrown error. *)
Definition errorType (e : exn) : string :=
  match e with
  | Error _ => "Error"
  | NonManifoldConstructionError => "NonManifoldConstructionError"
  end.

(** ** The store *)

Record HalfedgeDS := {
  faces : list Face.t;
  vertices : list Vertex.t;
  halfedges : list Halfedge.t;
  tolerance : Q
}.

(** [new HalfedgeDS(options)]. *)
Definition newHalfedgeDS (tol : Q) : HalfedgeDS :=
  {| faces := []; vertices := []; halfedges := []; tolerance := tol |}.

Definition clear (this : HalfedgeDS) : HalfedgeDS :=
  {| faces := []; vertices := []; halfedges := []; tolerance := tolerance this |}.

Definition setVertices (this : HalfedgeDS) (vs : list Vertex.t) : HalfedgeDS :=
  {| faces := faces this; vertices := vs; halfedges := halfedges this;
     tolerance := tolerance this |}.
Definition setHalfedges (this : HalfedgeDS) (hs : list Halfedge.t) : HalfedgeDS :=
  {| faces := faces this; vertices := vertices this; halfedges := hs;
     tolerance := tolerance this |}.
Definition setFaces (this : HalfedgeDS) (fs : list Face.t) : HalfedgeDS :=
  {| faces := fs; vertices := vertices this; halfedges := halfedges this;
     tolerance := tolerance this |}.

(** ** Primitive operations *)

(** Modelled from the spec: [addVertex] ([operations/addVertex.ts] is
    missing).  It creates and stores a new vertex with the given position, no
    outgoing halfedge and no identifier yet, and returns it. *)
Definition addVertex (struct : HalfedgeDS) (position : Vector3) : HalfedgeDS * nat :=
  (setVertices struct
     (vertices struct ++
        [ {| Vertex.id := None; Vertex.position := position; Vertex.halfedge := None |} ]),
   length (vertices struct)).

(** Gives vertex [v] the outgoing halfedge [h] unless it has one. *)
Definition lazyOutgoing (h : nat) (v : Vertex.t) : Vertex.t :=
  match Vertex.halfedge v with
  | Some _ => v
  | None => {| Vertex.id := Vertex.id v; Vertex.position := Vertex.position v;
               Vertex.halfedge := Some h |}
  end.

(** Modelled from the spec: [addEdge] ([operations/addEdge.ts] is missing).
    It creates the twin pair [h1] (origin [v1]) and [h2] (origin [v2]), links
    the two as twins, gives each vertex its outgoing halfedge if it has none,
    sets neither [next], [prev] nor [face], and returns [h1].  The
    specification is silent about an edge from a vertex to itself; the
    operation of the library refuses it (it throws
    ['Vertices v1 and v2 should be different'] before it changes anything),
    and so does this one, with the structural error of the specification. *)
Definition addEdge (struct : HalfedgeDS) (v1 v2 : nat) : exn + HalfedgeDS * nat :=
  if decide (v1 = v2) then inl NonManifoldConstructionError
  else
    let h1 := length (halfedges struct) in
    let h2 := S h1 in
    let hs := halfedges struct ++
      [ {| Halfedge.vertex := v1; Halfedge.twin := h2; Halfedge.next := None;
           Halfedge.prev := None; Halfedge.face := None |};
        {| Halfedge.vertex := v2; Halfedge.twin := h1; Halfedge.next := None;
           Halfedge.prev := None; Halfedge.face := None |} ] in
    let vs := alter (lazyOutgoing h2) v2 (alter (lazyOutgoing h1) v1 (vertices struct)) in
    inr (setVertices (setHalfedges struct hs) vs, h1).

(** [h.twin] of a stored halfedge.  A reference that is not in the store has
    no record to read; the operations never produce one. *)
Definition twinOf (struct : HalfedgeDS) (h : nat) : nat :=
  match halfedges struct !! h with
  | Some r => Halfedge.twin r
  | None => h
  end.

Definition faceOf (struct : HalfedgeDS) (h : nat) : option nat :=
  halfedges struct !! h ≫= Halfedge.face.

Definition setNext (n : nat) (r : Halfedge.t) : Halfedge.t :=
  {| Halfedge.vertex := Halfedge.vertex r; Halfedge.twin := Halfedge.twin r;
     Halfedge.next := Some n; Halfedge.prev := Halfedge.prev r;
     Halfedge.face := Halfedge.face r |}.
Definition setPrev (p : nat) (r : Halfedge.t) : Halfedge.t :=
  {| Halfedge.vertex := Halfedge.vertex r; Halfedge.twin := Halfedge.twin r;
     Halfedge.next := Halfedge.next r; Halfedge.prev := Some p;
     Halfedge.face := Halfedge.face r |}.
Definition setFace (f : nat) (r : Halfedge.t) : Halfedge.t :=
  {| Halfedge.vertex := Halfedge.vertex r; Halfedge.twin := Halfedge.twin r;
     Halfedge.next := Halfedge.next r; Halfedge.prev := Halfedge.prev r;
     Halfedge.face := Some f |}.

(** Wires side [i] of the loop: [curr.next = next], [next.prev = curr],
    [curr.face = f]. *)
Definition wireSide (loopHalfedges : list nat) (f : nat)
    (hs : list Halfedge.t) (i : nat) : list Halfedge.t :=
  match loopHalfedges !! i,
        loopHalfedges !! ((i + 1) mod length loopHalfedges) with
  | Some curr, Some nxt =>
      alter (setFace f) curr (alter (setPrev curr) nxt (alter (setNext nxt) curr hs))
  | _, _ => hs
  end.

(** Modelled from the spec: [addFace] ([operations/addFace.ts] is missing).
    It fails when a halfedge of the loop already has a face; otherwise it
    wires [next] and [prev] around the cycle, creates a face that refers to
    the first halfedge, sets [face] on every halfedge of the loop and returns
    the face. *)
Definition addFace (struct : HalfedgeDS) (loopHalfedges : list nat)
    : exn + HalfedgeDS * nat :=
  if decide (Exists (λ h, is_Some (faceOf struct h)) loopHalfedges)
  then inl NonManifoldConstructionError
  else
    let f := length (faces struct) in
    let hs := foldl (wireSide loopHalfedges f) (halfedges struct)
                    (seq 0 (length loopHalfedges)) in
    inr (setFaces (setHalfedges struct hs)
           (faces struct ++
              [ {| Face.id := None; Face.halfedge := head loopHalfedges |} ]),
         f).

(** ** The builder *)

Record BufferGeometry := {
  position : option BufferAttribute;
  index : option IndexAttribute
}.

(** The naturals [i] a loop [for (i = 0; i < bound; i++)] goes through, for
    a bound that need not be whole. *)
Definition forRange (bound : Q) : list nat := seq 0 (Z.to_nat (Qceiling bound)).

(** [count / 3]. *)
Definition third (n : nat) : Q := (inject_Z (Z.of_nat n) / 3)%Q.

Definition nbOfFaces (positions : BufferAttribute)
    (indexBuffer : option IndexAttribute) : Q :=
  match indexBuffer with
  | Some ib => third (index_count ib)
  | None => third (count positions)
  end.

(** The count that is divided by 3: the one of the index buffer if there is
    one, the one of the positions otherwise. *)
Definition cornerCount (positions : BufferAttribute)
    (indexBuffer : option IndexAttribute) : nat :=
  match indexBuffer with
  | Some ib => index_count ib
  | None => count positions
  end.

(** The closure [getVertexIndex], in its two versions. *)
Definition getVertexIndex (indexVertexArray : list nat)
    (indexBuffer : option IndexAttribute) (bufferIndex : nat) : option nat :=
  match indexBuffer with
  | Some ib => index_array ib !! bufferIndex ≫= λ k, indexVertexArray !! k
  | None => indexVertexArray !! bufferIndex
  end.

(** The arrays that [buildFromGeometry] reads in: [indexBuffer.array],
    [indexVertexArray] and [positions.array]. *)
Inductive Buffer := IndexBufferArray | IndexVertexArray | PositionArray.

(** A read [a[k]]: the array, the index [k] ([None] when the index is itself
    [undefined]) and the length of the array. *)
Inductive Access := Read (buffer : Buffer) (k : option nat) (len : nat).

(** A read is within bounds when its index is a number below the length. *)
Definition inBounds (a : Access) : Prop :=
  match a with
  | Read _ (Some k) len => k < len
  | Read _ None _ => False
  end.

(** The reads that a call [getVertexIndex(bufferIndex)] makes. *)
Definition getVertexIndexReads (indexVertexArray : list nat)
    (indexBuffer : option IndexAttribute) (bufferIndex : nat) : list Access :=
  match indexBuffer with
  | Some ib =>
      [ Read IndexBufferArray (Some bufferIndex) (length (index_array ib));
        Read IndexVertexArray (index_array ib !! bufferIndex)
          (length indexVertexArray) ]
  | None => [ Read IndexVertexArray (Some bufferIndex) (length indexVertexArray) ]
  end.

(** The reads that a call [pos_.fromBufferAttribute(positions, index)]
    makes. *)
Definition fromBufferAttributeReads (positions : BufferAttribute)
    (index : option nat) : list Access :=
  (λ j, Read PositionArray ((λ i, i * 3 + j) <$> index) (length (array positions)))
    <$> [0; 1; 2].

(** What the build keeps besides the store: the two maps.  [reads] is not a
    variable of the source: it records the array reads in the order they are
    made, for the properties that speak of them. *)
Record BuildState := {
  store : HalfedgeDS;
  halfedgeMap : gmap string nat;
  vertexMap : gmap (option nat) nat;
  reads : list Access
}.

Definition logReads (rs : list Access) (st : BuildState) : BuildState :=
  {| store := store st; halfedgeMap := halfedgeMap st; vertexMap := vertexMap st;
     reads := reads st ++ rs |}.

(** The key [i1+'-'+i2] of a directed edge. *)
Definition edgeHash (i1 i2 : option nat) : string :=
  indexString i1 +:+ "-" +:+ indexString i2.

Definition setId (i : option nat) (v : Vertex.t) : Vertex.t :=
  {| Vertex.id := i; Vertex.position := Vertex.position v;
     Vertex.halfedge := Vertex.halfedge v |}.

(** The vertex of canonical index [i1]: the one of [vertexMap], or a new
    one, which gets [i1] as its identifier and is entered in the map. *)
Definition resolveVertex (positions : BufferAttribute) (i1 : option nat)
    (st : BuildState) : BuildState * nat :=
  match vertexMap st !! i1 with
  | Some v1 => (st, v1)
  | None =>
      let '(ds, v1) := addVertex (store st) (fromBufferAttribute positions i1) in
      ({| store := setVertices ds (alter (setId i1) v1 (vertices ds));
          halfedgeMap := halfedgeMap st;
          vertexMap := <[i1 := v1]> (vertexMap st);
          reads := reads st ++ fromBufferAttributeReads positions i1 |}, v1)
  end.

(** The halfedge from [v1] to [v2]: the one of [halfedgeMap], or a new pair
    from [addEdge], entered in the map under both keys.  When [addEdge]
    throws, the state is the one of the call. *)
Definition resolveEdge (i1 i2 : option nat) (v1 v2 : nat)
    (st : BuildState) : BuildState * (exn + nat) :=
  let hash1 := edgeHash i1 i2 in
  match halfedgeMap st !! hash1 with
  | Some h1 => (st, inr h1)
  | None =>
      match addEdge (store st) v1 v2 with
      | inl e => (st, inl e)
      | inr (ds, h1) =>
          let h2 := twinOf ds h1 in
          let hash2 := edgeHash i2 i1 in
          ({| store := ds;
              halfedgeMap := <[hash2 := h2]> (<[hash1 := h1]> (halfedgeMap st));
              vertexMap := vertexMap st;
              reads := reads st |}, inr h1)
      end
  end.

(** The two canonical indices of side [i] of face [faceIndex]. *)
Definition sideIndices (indexVertexArray : list nat)
    (indexBuffer : option IndexAttribute) (faceIndex i : nat)
    : option nat * option nat :=
  (getVertexIndex indexVertexArray indexBuffer (faceIndex * 3 + i),
   getVertexIndex indexVertexArray indexBuffer (faceIndex * 3 + (i + 1) mod 3)).

(** The body of the loop over the sides [i] of a face: the halfedge of the
    side, or the exception of [addEdge]. *)
Definition resolveSide (positions : BufferAttribute) (indexVertexArray : list nat)
    (indexBuffer : option IndexAttribute) (faceIndex i : nat)
    (st : BuildState) : BuildState * (exn + nat) :=
  let '(i1, i2) := sideIndices indexVertexArray indexBuffer faceIndex i in
  let '(st1, v1) :=
    resolveVertex positions i1
      (logReads (getVertexIndexReads indexVertexArray indexBuffer (faceIndex * 3 + i))
         st) in
  let '(st2, v2) :=
    resolveVertex positions i2
      (logReads (getVertexIndexReads indexVertexArray indexBuffer
                   (faceIndex * 3 + (i + 1) mod 3))
         st1) in
  resolveEdge i1 i2 v1 v2 st2.

(** The loop over the sides still to do fills [loopHalfedges]; an exception
    ends it. *)
Fixpoint resolveSidesFrom (positions : BufferAttribute) (indexVertexArray : list nat)
    (indexBuffer : option IndexAttribute) (faceIndex : nat) (sides : list nat)
    (st : BuildState) (loopHalfedges : list nat) : BuildState * (exn + list nat) :=
  match sides with
  | [] => (st, inr loopHalfedges)
  | i :: rest =>
      match resolveSide positions indexVertexArray indexBuffer faceIndex i st with
      | (st', inl e) => (st', inl e)
      | (st', inr h1) =>
          resolveSidesFrom positions indexVertexArray indexBuffer faceIndex rest st'
            (loopHalfedges ++ [h1])
      end
  end.

(** The loop [for (let i=0; i<3; i++)]: the three slots of [loopHalfedges]
    are all written before [addFace] reads them. *)
Definition resolveSides (positions : BufferAttribute) (indexVertexArray : list nat)
    (indexBuffer : option IndexAttribute) (faceIndex : nat)
    (st : BuildState) : BuildState * (exn + list nat) :=
  resolveSidesFrom positions indexVertexArray indexBuffer faceIndex [0; 1; 2] st [].

Definition setFaceId (i : nat) (f : Face.t) : Face.t :=
  {| Face.id := Some i; Face.halfedge := Face.halfedge f |}.

(** The body of the loop over the faces; the state comes with the exception,
    if one was thrown. *)
Definition buildFace (positions : BufferAttribute) (indexVertexArray : list nat)
    (indexBuffer : option IndexAttribute) (st : BuildState) (faceIndex : nat)
    : BuildState * option exn :=
  match resolveSides positions indexVertexArray indexBuffer faceIndex st with
  | (st1, inl e) => (st1, Some e)
  | (st1, inr loopHalfedges) =>
      match addFace (store st1) loopHalfedges with
      | inl e => (st1, Some e)
      | inr (ds, face) =>
          ({| store := setFaces ds (alter (setFaceId faceIndex) face (faces ds));
              halfedgeMap := halfedgeMap st1;
              vertexMap := vertexMap st1;
              reads := reads st1 |}, None)
      end
  end.

(** The loop over the faces: an exception ends it. *)
Fixpoint faceLoop (positions : BufferAttribute) (indexVertexArray : list nat)
    (indexBuffer : option IndexAttribute) (faceIndices : list nat)
    (st : BuildState) : BuildState * option exn :=
  match faceIndices with
  | [] => (st, None)
  | faceIndex :: rest =>
      match buildFace positions indexVertexArray indexBuffer st faceIndex with
      | (st', Some e) => (st', Some e)
      | (st', None) => faceLoop positions indexVertexArray indexBuffer rest st'
      end
  end.

(** The state of a build when the loop over the faces starts: the store
    cleared, the maps empty. *)
Definition initialState (this : HalfedgeDS) : BuildState :=
  {| store := clear this; halfedgeMap := ∅; vertexMap := ∅; reads := [] |}.

(** A run of [buildFromGeometry]: the state it ends in, and the exception if
    it threw one. *)
Definition buildRun (this : HalfedgeDS) (geometry : BufferGeometry)
    : BuildState * option exn :=
  match position geometry with
  | None =>
      (initialState this,
       Some (Error "BufferGeometry does not have a position BufferAttribute."))
  | Some positions =>
      let indexVertexArray := computeVerticesIndexArray positions (tolerance this) in
      let indexBuffer := index geometry in
      faceLoop positions indexVertexArray indexBuffer
        (forRange (nbOfFaces positions indexBuffer)) (initialState this)
  end.

(** [buildFromGeometry] returns the store as the call leaves it, and the
    exception if the call threw one. *)
Definition buildFromGeometry (this : HalfedgeDS) (geometry : BufferGeometry)
    : HalfedgeDS * option exn :=
  ((store (buildRun this geometry).1), (buildRun this geometry).2).

(** The array reads of a call of [buildFromGeometry] after the vertex
    merger, in the order they are made. *)
Definition buildReads (this : HalfedgeDS) (geometry : BufferGeometry) : list Access :=
  reads (buildRun this geometry).1.

(** ** Traversal *)

Definition nextOf (this : HalfedgeDS) (h : nat) : option nat :=
  halfedges this !! h ≫= Halfedge.next.

(** Modelled from the spec: [Halfedge.nextLoop] ([core/Halfedge.ts] is
    missing): the halfedges got by repeated [next] from [start] until
    [start] is reached again, [start] included.  [curr] is the halfedge to
    yield next; [None] when the fuel runs out or a [next] is not set. *)
Fixpoint nextLoopFrom (next : nat → option nat) (fuel : nat) (start curr : nat)
    : option (list nat) :=
  match fuel with
  | 0 => None
  | S fuel' =>
      match next curr with
      | None => None
      | Some nxt =>
          if decide (nxt = start) then Some [curr]
          else (curr ::.) <$> nextLoopFrom next fuel' start nxt
      end
  end.

(** A closed loop of a store goes through each of its halfedges at most
    once, so their number is fuel enough. *)
Definition nextLoop (this : HalfedgeDS) (start : nat) : option (list nat) :=
  nextLoopFrom (nextOf this) (length (halfedges this)) start start.

(** One turn of the loop of [loops], on the pair of [loops] and [handled]. *)
Definition loopsStep (this : HalfedgeDS) (st : option (list nat * gset nat))
    (halfedge : nat) : option (list nat * gset nat) :=
  st ≫= λ '(loops, handled),
    if decide (halfedge ∈ handled) then Some (loops, handled)
    else
      nextLoop this halfedge ≫= λ l,
        Some (loops ++ [halfedge], handled ∪ list_to_set l).

(** [loops()]; [None] when a traversal does not come back. *)
Definition loops (this : HalfedgeDS) : option (list nat) :=
  fst <$> foldl (loopsStep this) (Some ([], ∅)) (seq 0 (length (halfedges this))).

(** ** The vertex merger over the numbers of JavaScript

    [computeVerticesIndexArray] once more, with nothing left out: the numbers
    and the operations on them that the source uses are parameters, and the
    count of the attribute is any rational.  What is proved of this function
    is proved for every choice of the parameters, the floating point numbers
    of JavaScript among them. *)

Module Js.

(** The numbers: [NaN], the literals [1] and [10], [/], [*], [Math.log10],
    [Math.pow], [Math.round], and the string of a template literal
    [`${n}`]. *)
Record Numbers := {
  number : Type;
  NaN : number;
  one : number;
  ten : number;
  divide : number → number → number;
  times : number → number → number;
  Math_log10 : number → number;
  Math_pow : number → number → number;
  Math_round : number → number;
  toString : number → string
}.

(** A position attribute: the flat array and [count], which three.js sets to
    the length of the array divided by the item size, whole or not. *)
Record Attribute (N : Numbers) := {
  array : list (number N);
  count : Q
}.
Arguments array {N} _.
Arguments count {N} _.

Section Merger.
Context {N : Numbers}.

(** [positions.array[k] * shiftMultiplier]; a read outside the array is
    [undefined], and [undefined * shiftMultiplier] is [NaN]. *)
Definition scaledComponent (positions : Attribute N) (shiftMultiplier : number N)
    (k : nat) : number N :=
  match array positions !! k with
  | Some x => times N x shiftMultiplier
  | None => NaN N
  end.

Definition hashOf (positions : Attribute N) (shiftMultiplier : number N)
    (i : nat) : string :=
  foldl (λ hash j,
           hash +:+ toString N
                      (Math_round N (scaledComponent positions shiftMultiplier (i * 3 + j))))
        "" [0; 1; 2].

Definition decimalShift (tolerance : number N) : number N :=
  Math_log10 N (divide N (one N) tolerance).

Definition shiftMultiplier (tolerance : number N) : number N :=
  Math_pow N (ten N) (decimalShift tolerance).

(** One turn of the outer loop, for positions whose keys are given by
    [key]. *)
Definition mergeStepBy (key : nat → string)
    (st : gmap string nat * list nat) (i : nat) : gmap string nat * list nat :=
  let hash := key i in
  match st.1 !! hash with
  | Some vertexIndex => (st.1, st.2 ++ [vertexIndex])
  | None => (<[hash := i]> st.1, st.2 ++ [i])
  end.

Definition mergeStep (positions : Attribute N) (shiftMultiplier : number N)
    : gmap string nat * list nat → nat → gmap string nat * list nat :=
  mergeStepBy (hashOf positions shiftMultiplier).

(** The loop [for (let i=0; i < positions.count; i++)] goes through the
    naturals below [count]. *)
Definition computeVerticesIndexArray (positions : Attribute N)
    (tolerance : number N) : list nat :=
  (foldl (mergeStep positions (shiftMultiplier tolerance)) (∅, [])
         (forRange (count positions))).2.

End Merger.
End Js.

(** Exact arithmetic as numbers: a rational, the logarithm to base 10 of a
    rational (kept as it is, so that raising 10 to it gives the rational
    back), or [NaN].  Division by zero, which gives an infinity in
    JavaScript, is not told apart. *)
Inductive exactNumber :=
| Exact (q : Q)
| Log10Of (q : Q)
| NotANumber.

Definition exactNumbers : Js.Numbers :=
  {| Js.number := exactNumber;
     Js.NaN := NotANumber;
     Js.one := Exact 1;
     Js.ten := Exact 10;
     Js.divide a b :=
       match a, b with
       | Exact p, Exact q => Exact (p / q)
       | _, _ => NotANumber
       end;
     Js.times a b :=
       match a, b with
       | Exact p, Exact q => Exact (p * q)
       | _, _ => NotANumber
       end;
     Js.Math_log10 a :=
       match a with
       | Exact p => Log10Of p
       | _ => NotANumber
       end;
     Js.Math_pow b e :=
       match b, e with
       | Exact p, Log10Of q => if Qeq_bool p 10 then Exact q else NotANumber
       | _, _ => NotANumber
       end;
     Js.Math_round a :=
       match a with
       | Exact p => Exact (inject_Z (Math_round p))
       | _ => NotANumber
       end;
     Js.toString a :=
       match a with
       | Exact p => pretty (Qfloor p)
       | _ => "NaN"
       end |}.

(** A position attribute with a whole count, as an attribute of exact
    numbers. *)
Definition exactAttribute (positions : BufferAttribute) : Js.Attribute exactNumbers :=
  {| Js.array := Exact <$> array positions;
     Js.count := inject_Z (Z.of_nat (count positions)) |}.

(** Four numbers in an attribute of item size 3: the count is [4/3]. *)
Definition fourNumbers : Js.Attribute exactNumbers :=
  Js.Build_Attribute exactNumbers [Exact 0; Exact 0; Exact 0; Exact 1] (4 # 3).

(** The doubles as numbers.  [*] and [/] are the operations of IEEE 754
    binary64, which are those of JavaScript.  [Math.round] is exact: the
    nearest integer, a tie going towards plus infinity.  The string of a
    number is written out for what [Math.round] can return below [1e21]:
    an integer, an infinity or [NaN]; for any other double it is left to
    [render].  JavaScript does not fix the last bit of [Math.log10] and
    [Math.pow]; they are parameters. *)
Definition Z2double (z : Z) : PrimFloat.float :=
  if (z <? 0)%Z then PrimFloat.opp (PrimFloat.of_uint63 (Uint63.of_Z (- z)))
  else PrimFloat.of_uint63 (Uint63.of_Z z).

Definition roundDouble (f : PrimFloat.float) : PrimFloat.float :=
  match FloatOps.Prim2SF f with
  | SpecFloat.S754_finite s m e =>
      if (0 <=? e)%Z then f
      else
        let q := (inject_Z (Z.pos m) * (2 # 1) ^ e)%Q in
        let z := Qfloor ((if s then - q else q) + (1 # 2))%Q in
        if (z =? 0)%Z && s then PrimFloat.opp (Z2double 0) else Z2double z
  | _ => f
  end.

Definition doubleString (render : PrimFloat.float → string)
    (f : PrimFloat.float) : string :=
  match FloatOps.Prim2SF f with
  | SpecFloat.S754_nan => "NaN"
  | SpecFloat.S754_infinity false => "Infinity"
  | SpecFloat.S754_infinity true => "-Infinity"
  | SpecFloat.S754_zero _ => "0"
  | SpecFloat.S754_finite s m e =>
      let q := (inject_Z (Z.pos m) * (2 # 1) ^ e)%Q in
      if Qeq_bool q (inject_Z (Qfloor q)) && (Qfloor q <? 10 ^ 21)%Z
      then (if s then "-" else "") +:+ pretty (Qfloor q)
      else render f
  end.

Definition doubles (log10 : PrimFloat.float → PrimFloat.float)
    (pow : PrimFloat.float → PrimFloat.float → PrimFloat.float)
    (render : PrimFloat.float → string) : Js.Numbers :=
  {| Js.number := PrimFloat.float;
     Js.NaN := PrimFloat.nan;
     Js.one := Z2double 1;
     Js.ten := Z2double 10;
     Js.divide := PrimFloat.div;
     Js.times := PrimFloat.mul;
     Js.Math_log10 := log10;
     Js.Math_pow := pow;
     Js.Math_round := roundDouble;
     Js.toString := doubleString render |}.

(** The doubles [1/8], [1/16] and [0.15]. *)
Definition oneEighth : PrimFloat.float := PrimFloat.div (Z2double 1) (Z2double 8).
Definition oneSixteenth : PrimFloat.float := PrimFloat.div (Z2double 1) (Z2double 16).
Definition fifteenHundredths : PrimFloat.float :=
  PrimFloat.div (Z2double 15) (Z2double 100).

(** Three points on the x axis, at [a], [b] and [c], where [c] is zero. *)
Definition threeOnAxis (N : Js.Numbers) (a b c : Js.number N) : Js.Attribute N :=
  Js.Build_Attribute N [a; c; c; b; c; c; c; c; c] 3.

(** ** Notions the properties are stated with *)

(** [j] is the first position whose key is [k]. *)
Definition isFirst (key : nat → string) (k : string) (j : nat) : Prop :=
  key j = k ∧ ∀ j', j' < j → key j' ≠ k.

(** [n] applications of [next]. *)
Fixpoint iterNext (next : nat → option nat) (n : nat) (h : nat) : option nat :=
  match n with
  | 0 => Some h
  | S n' => next h ≫= iterNext next n'
  end.

(** Loop closure: following [next] from a halfedge of the store comes back
    to it after finitely many steps. *)
Definition loopsClosed (this : HalfedgeDS) : Prop :=
  ∀ h, h < length (halfedges this) →
    ∃ n, 0 < n ∧ iterNext (nextOf this) n h = Some h.

(** [h] belongs to the next-loop of [r]. *)
Definition inNextLoop (this : HalfedgeDS) (r h : nat) : Prop :=
  ∃ l, nextLoop this r = Some l ∧ h ∈ l.

(** Nothing of the store [ds] is lost in [ds']: the tolerance is the same,
    and the vertices (with their identifiers and positions), the halfedges
    (with their origins and twins) and the faces of [ds] are those that
    [ds'] begins with. *)
Definition storeKept (ds ds' : HalfedgeDS) : Prop :=
  tolerance ds' = tolerance ds
  ∧ (Vertex.id <$> vertices ds) `prefix_of` (Vertex.id <$> vertices ds')
  ∧ (Vertex.position <$> vertices ds) `prefix_of` (Vertex.position <$> vertices ds')
  ∧ (Halfedge.vertex <$> halfedges ds) `prefix_of` (Halfedge.vertex <$> halfedges ds')
  ∧ (Halfedge.twin <$> halfedges ds) `prefix_of` (Halfedge.twin <$> halfedges ds')
  ∧ faces ds `prefix_of` faces ds'.

(** The same of the states of a build, with the reads made so far. *)
Definition stateKept (st st' : BuildState) : Prop :=
  storeKept (store st) (store st') ∧ reads st `prefix_of` reads st'.

(** ** Inputs of the examples *)

(** A geometry without index buffer: three consecutive points per face. *)
Definition triSoup (pts : list (Q * Q * Q)) : BufferGeometry :=
  {| position := Some (pointsAttribute pts); index := None |}.

(** Two points in different grid cells at tolerance [1] whose keys are both
    ["1110"]. *)
Definition collidingPoints : BufferAttribute :=
  pointsAttribute [(1, 11, 0); (11, 1, 0)]%Q.

(** The unit triangle twice: the second face asks for the three halfedges
    the first face already owns. *)
Definition doubledTriangle : BufferGeometry :=
  triSoup [(0, 0, 0); (1, 0, 0); (0, 1, 0); (0, 0, 0); (1, 0, 0); (0, 1, 0)]%Q.

(** A geometry with no attribute at all. *)
Definition emptyGeometry : BufferGeometry :=
  {| position := None; index := None |}.

(** The three corners of the unit triangle. *)
Definition trianglePoints : BufferAttribute :=
  pointsAttribute [(0, 0, 0); (1, 0, 0); (0, 1, 0)]%Q.

(** An index buffer of three entries, the last of which refers to no point
    of [trianglePoints]. *)
Definition strayIndex : IndexAttribute :=
  {| index_array := [0; 1; 7]; index_count := 3 |}.

(** The unit triangle with the index buffer [strayIndex]. *)
Definition strayIndexGeometry : BufferGeometry :=
  {| position := Some trianglePoints; index := Some strayIndex |}.

(** The face [A, A, B] of [pinchedPoints], without index buffer. *)
Definition pinchedGeometry : BufferGeometry :=
  triSoup [(0, 0, 0); (0, 0, 0); (1, 0, 0)]%Q.

(** Five points and no index buffer: a triangle and two corners more. *)
Definition fivePoints : BufferGeometry :=
  triSoup [(0, 0, 0); (1, 0, 0); (0, 1, 0); (2, 0, 0); (3, 0, 0)]%Q.

(** Four points and no index buffer: [4/3] faces. *)
Definition fourPoints : BufferAttribute :=
  pointsAttribute [(0, 0, 0); (1, 0, 0); (0, 1, 0); (1, 1, 0)]%Q.

(** The reads that resolving buffer index [bufferIndex] takes are all inside
    their arrays: the one of the index buffer (if there is one), the one of
    the canonical-index array, and the three of the position buffer. *)
Definition readsInBounds (positions : BufferAttribute) (indexVertexArray : list nat)
    (indexBuffer : option IndexAttribute) (bufferIndex : nat) : Prop :=
  match indexBuffer with
  | Some ib => ∃ k, index_array ib !! bufferIndex = Some k ∧ k < length indexVertexArray
  | None => bufferIndex < length indexVertexArray
  end
  ∧ ∃ i1, getVertexIndex indexVertexArray indexBuffer bufferIndex = Some i1
          ∧ i1 * 3 + 2 < length (array positions).

(** The input is as the builder expects it: whole items in the position
    buffer, a number of face corners that is a multiple of 3, and, with an
    index buffer, entries that refer to positions. *)
Definition wellIndexed (positions : BufferAttribute)
    (indexBuffer : option IndexAttribute) : Prop :=
  count positions * 3 ≤ length (array positions)
  ∧ match indexBuffer with
    | None => count positions mod 3 = 0
    | Some ib =>
        index_count ib mod 3 = 0
        ∧ index_count ib ≤ length (index_array ib)
        ∧ ∀ k v, k < index_count ib → index_array ib !! k = Some v →
            v < count positions
    end.

(** The reads that resolving the corner at [bufferIndex] can take: those of
    [getVertexIndex], and those of [fromBufferAttribute] at the index it
    returns (made when the vertex is new). *)
Definition cornerReads (positions : BufferAttribute) (indexVertexArray : list nat)
    (indexBuffer : option IndexAttribute) (bufferIndex : nat) : list Access :=
  getVertexIndexReads indexVertexArray indexBuffer bufferIndex
  ++ fromBufferAttributeReads positions
       (getVertexIndex indexVertexArray indexBuffer bufferIndex).

(** The four points as a geometry without index buffer. *)
Definition fourPointsGeometry : BufferGeometry :=
  {| position := Some fourPoints; index := None |}.


(** A string without the character ['-']. *)
Fixpoint dashFree (s : string) : bool :=
  match s with
  | "" => true
  | String a s' => negb (Ascii.eqb a "-"%char) && dashFree s'
  end.

(** A string of decimal digits. *)
Fixpoint allDigits (s : string) : bool :=
  match s with
  | "" => true
  | String a s' => bool_decide (is_Some (Ascii.is_nat a)) && allDigits s'
  end.

(** A halfedge with no face, for writing stores down. *)
Definition wired (v t n p : nat) : Halfedge.t :=
  {| Halfedge.vertex := v; Halfedge.twin := t; Halfedge.next := Some n;
     Halfedge.prev := Some p; Halfedge.face := None |}.

(** A store of five halfedges in two loops: [0 -> 1 -> 2 -> 0] and
    [3 -> 4 -> 3]. *)
Definition twoLoops : HalfedgeDS :=
  {| faces := []; vertices := [];
     halfedges := [wired 0 0 1 2; wired 1 1 2 0; wired 2 2 0 1;
                   wired 3 4 4 4; wired 4 3 3 3];
     tolerance := 1 |}.

(** [h] is reached from [r] by repeated [next]. *)
Definition orbit (next : nat → option nat) (r h : nat) : Prop :=
  ∃ k, iterNext next k r = Some h.

(** What the two variables of the loop of [loops] hold after the halfedges
    below [n] were visited. *)
Definition loopsInv (this : HalfedgeDS) (n : nat)
    (st : option (list nat * gset nat)) : Prop :=
  ∃ reps handled,
    st = Some (reps, handled)
    ∧ (∀ h, h ∈ handled ↔ ∃ r, r ∈ reps ∧ orbit (nextOf this) r h)
    ∧ (∀ h, h < n → h ∈ handled)
    ∧ NoDup reps
    ∧ (∀ r, r ∈ reps → r < n)
    ∧ (∀ r1 r2, r1 ∈ reps → r2 ∈ reps → orbit (nextOf this) r1 r2 → r1 = r2).

(** The halfedges that the two nested loops of [updateLinesGeometry] go
    through ([for (const loophe of loops)], then
    [for (const halfedge of loophe.nextLoop())]), in the order they are
    drawn; [None] when [loops()] or a traversal does not return. *)
Definition drawnHalfedges (this : HalfedgeDS) : option (list nat) :=
  loops this ≫= λ reps, mjoin <$> mapM (nextLoop this) reps.

(** More of what the variables of the loop of [loops] hold: the
    representatives are in increasing order, each is the least halfedge of
    its loop, and the loops found so far, put end to end, hold the handled
    halfedges once each. *)
Definition loopsInvMore (this : HalfedgeDS)
    (st : option (list nat * gset nat)) : Prop :=
  ∀ reps handled, st = Some (reps, handled) →
    (∀ i j a b, i < j → reps !! i = Some a → reps !! j = Some b → a < b)
    ∧ (∀ r h, r ∈ reps → orbit (nextOf this) r h → r ≤ h)
    ∧ ∃ ls, Forall2 (λ r l, nextLoop this r = Some l) reps ls
            ∧ NoDup (mjoin ls)
            ∧ ∀ h, h ∈ mjoin ls ↔ h ∈ handled.

(** A canonical index refers to itself in the canonical-index array; the
    condition is void for [undefined]. *)
Definition canonicalIndex (indexVertexArray : list nat) (i : option nat) : Prop :=
  ∀ k, i = Some k → indexVertexArray !! k = Some k.

(** The [twin] fields of a list of halfedges pair them up: there is an even
    number of halfedges, no halfedge is its own twin, and the twin of the
    twin is the halfedge itself. *)
Definition twinsPaired (twins : list nat) : Prop :=
  Nat.Even (length twins)
  ∧ ∀ h t, twins !! h = Some t → t ≠ h ∧ twins !! t = Some h.

(** What the build keeps true of the store and of [vertexMap]: the map sends
    an index (one that satisfies [K]) to a vertex that has this index as
    identifier and the position read at this index; every vertex of the
    store is in the map under its identifier; face [k] has the identifier
    [k]; the twins are paired; the origin of a halfedge is in the store. *)
Definition buildWf (positions : BufferAttribute) (K : option nat → Prop)
    (st : BuildState) : Prop :=
  (∀ i v, vertexMap st !! i = Some v →
     K i
     ∧ (Vertex.id <$> vertices (store st)) !! v = Some i
     ∧ (Vertex.position <$> vertices (store st)) !! v
       = Some (fromBufferAttribute positions i))
  ∧ (∀ v i, (Vertex.id <$> vertices (store st)) !! v = Some i →
       vertexMap st !! i = Some v)
  ∧ (∀ k f, faces (store st) !! k = Some f → Face.id f = Some k)
  ∧ twinsPaired (Halfedge.twin <$> halfedges (store st))
  ∧ (∀ h v, (Halfedge.vertex <$> halfedges (store st)) !! h = Some v →
       v < length (vertices (store st))).

(** What the build keeps true of [halfedgeMap]: for two different indices,
    the key of the reverse direction is mapped to the twin; and every
    halfedge whose two ends have different identifiers is in the map under
    the key made of these identifiers. *)
Definition edgesWf (st : BuildState) : Prop :=
  (∀ i1 i2 h, i1 ≠ i2 → halfedgeMap st !! edgeHash i1 i2 = Some h →
     ∃ t, (Halfedge.twin <$> halfedges (store st)) !! h = Some t
          ∧ halfedgeMap st !! edgeHash i2 i1 = Some t)
  ∧ (∀ h o t d i1 i2,
       (Halfedge.vertex <$> halfedges (store st)) !! h = Some o →
       (Halfedge.twin <$> halfedges (store st)) !! h = Some t →
       (Halfedge.vertex <$> halfedges (store st)) !! t = Some d →
       (Vertex.id <$> vertices (store st)) !! o = Some i1 →
       (Vertex.id <$> vertices (store st)) !! d = Some i2 →
       i1 ≠ i2 →
       halfedgeMap st !! edgeHash i1 i2 = Some h).

(** * Properties of the vertex merger *)

Section MergeLoop.
Variable positions : BufferAttribute.
Variable m : Q.

Let key := hashOf positions m.

Lemma mergeLoop_S n :
  mergeLoop positions m (S n)
  = mergeStep positions m (mergeLoop positions m n) n.
Proof. unfold mergeLoop. by rewrite seq_S, foldl_app. Qed.

Lemma isFirst_unique k j1 j2 :
  isFirst key k j1 → isFirst key k j2 → j1 = j2.
Proof.
  intros [E1 L1] [E2 L2].
  destruct (Nat.lt_trichotomy j1 j2) as [Hlt | [-> | Hlt]]; [|done|].
  - by destruct (L2 j1 Hlt).
  - by destruct (L1 j2 Hlt).
Qed.

(** What the two variables of the loop hold after [n] turns. *)
Lemma mergeLoop_spec n :
  let st := mergeLoop positions m n in
  length st.2 = n
  ∧ (∀ k j, st.1 !! k = Some j → j < n ∧ isFirst key k j)
  ∧ (∀ k, st.1 !! k = None → ∀ j, j < n → key j ≠ k)
  ∧ (∀ i, i < n → ∃ c, st.2 !! i = Some c ∧ c ≤ i ∧ isFirst key (key i) c).
Proof.
  induction n as [|n IH]; simpl.
  { split; [done|]. split; [intros k j; by rewrite lookup_empty|].
    split; intros; lia. }
  rewrite mergeLoop_S. simpl in IH.
  destruct (mergeLoop positions m n) as [hashMap indexArray]; simpl in *.
  destruct IH as (Hlen & Hsome & Hnone & Harr).
  unfold mergeStep; simpl. fold key.
  destruct (hashMap !! key n) as [v|] eqn:Hlook; simpl.
  - destruct (Hsome _ _ Hlook) as [Hv Hfirst].
    split; [rewrite length_app; simpl; lia|].
    split; [intros k j Hk; destruct (Hsome _ _ Hk); split; [lia|done]|].
    split.
    + intros k Hk j Hj. destruct (decide (j = n)) as [->|].
      * intros <-. congruence.
      * apply Hnone; [done|lia].
    + intros i Hi. destruct (decide (i = n)) as [->|].
      * exists v. rewrite lookup_app_r, Hlen, Nat.sub_diag by lia.
        split; [done|]. split; [lia|done].
      * destruct (Harr i) as (c & ? & ? & ?); [lia|].
        exists c. by rewrite lookup_app_l by lia.
  - split; [rewrite length_app; simpl; lia|].
    split.
    { intros k j. destruct (decide (key n = k)) as [<-|Hne].
      - rewrite lookup_insert_eq. intros [= <-]. split; [lia|].
        split; [done|]. intros j' Hj'. by apply Hnone.
      - rewrite lookup_insert_ne by done. intros Hk.
        destruct (Hsome _ _ Hk). split; [lia|done]. }
    split.
    { intros k. destruct (decide (key n = k)) as [<-|Hne].
      - by rewrite lookup_insert_eq.
      - rewrite lookup_insert_ne by done. intros Hk j Hj.
        destruct (decide (j = n)) as [->|]; [done|]. apply Hnone; [done|lia]. }
    intros i Hi. destruct (decide (i = n)) as [->|].
    + exists n. rewrite lookup_app_r, Hlen, Nat.sub_diag by lia.
      split; [done|]. split; [lia|]. split; [done|].
      intros j' Hj'. by apply Hnone.
    + destruct (Harr i) as (c & ? & ? & ?); [lia|].
      exists c. by rewrite lookup_app_l by lia.
Qed.
End MergeLoop.

Lemma computeVerticesIndexArray_length positions tol :
  length (computeVerticesIndexArray positions tol) = count positions.
Proof. apply mergeLoop_spec. Qed.

(** Entry [i] of the result is the first position with the key of [i]. *)
Lemma computeVerticesIndexArray_first positions tol i :
  i < count positions →
  ∃ c, computeVerticesIndexArray positions tol !! i = Some c
       ∧ c ≤ i
       ∧ isFirst (hashOf positions (shiftMultiplierQ tol))
                 (hashOf positions (shiftMultiplierQ tol) i) c.
Proof. intros Hi. by apply mergeLoop_spec. Qed.

(** C1: at tolerance [1] the points [(1, 11, 0)] and [(11, 1, 0)] lie in
    different grid cells, yet both get the key ["1110"], and the second one
    is mapped to index [0], which is not the first position of its cell. *)
Theorem merge_collision_breaks_first_occurrence :
  quantized collidingPoints (shiftMultiplierQ 1) 1
    ≠ quantized collidingPoints (shiftMultiplierQ 1) 0
  ∧ hashOf collidingPoints (shiftMultiplierQ 1) 0 = "1110"
  ∧ hashOf collidingPoints (shiftMultiplierQ 1) 1 = "1110"
  ∧ computeVerticesIndexArray collidingPoints 1 = [0; 0].
Proof. vm_compute. split; [intros [=]|done]. Qed.

(** C6: the two points of [collidingPoints] are free of near-duplicates at
    tolerance [1] (no two of them share a grid cell), yet the result is not
    the identity: position [1] is mapped to [0]. *)
Theorem merge_not_identity_without_duplicates :
  quantized collidingPoints (shiftMultiplierQ 1) 0
    ≠ quantized collidingPoints (shiftMultiplierQ 1) 1
  ∧ computeVerticesIndexArray collidingPoints 1 !! 1 = Some 0
  ∧ computeVerticesIndexArray collidingPoints 1 ≠ seq 0 2.
Proof. vm_compute. split; [intros [=]|]. split; [done|intros [=]]. Qed.

(** The same happens at the default tolerance [1e-10]: the keys of
    [(1, 0, 1)] and [(10, 0.1, 0)] are the same string. *)
Example merge_collision_default_tolerance :
  computeVerticesIndexArray
    (pointsAttribute [(1, 0, 1); (10, 1 # 10, 0)]%Q) (1 # 10000000000) = [0; 0].
Proof. by vm_compute. Qed.

(** *** The multiplier *)

Lemma ln_10_pos : (0 < ln 10)%R.
Proof. rewrite <- ln_1. apply ln_increasing; lra. Qed.

Lemma shiftMultiplier_exact (tol : R) :
  (0 < tol)%R → shiftMultiplier tol = (1 / tol)%R.
Proof.
  intros Htol. unfold shiftMultiplier, decimalShift, Math_pow, Math_log10, Rpower.
  pose proof ln_10_pos as H10.
  replace (ln (1 / tol) / ln 10 * ln 10)%R with (ln (1 / tol)) by (field; lra).
  apply exp_ln. apply Rdiv_lt_0_compat; lra.
Qed.

Lemma shiftMultiplierQ_exact (tol : Q) :
  (0 < tol)%Q → Q2R (shiftMultiplierQ tol) = shiftMultiplier (Q2R tol).
Proof.
  intros Htol.
  assert (0 < Q2R tol)%R as HR by (rewrite <- RMicromega.Q2R_0; by apply Qlt_Rlt).
  rewrite shiftMultiplier_exact by done.
  unfold shiftMultiplierQ, Qdiv.
  rewrite Q2R_mult, Q2R_inv, RMicromega.Q2R_1.
  - done.
  - intros Hz. rewrite Hz in Htol. by apply Qlt_irrefl in Htol.
Qed.

Lemma ceiling_log10_2 : ceiling (Math_log10 2) = 1%Z.
Proof.
  unfold ceiling, Math_log10, Int_part.
  pose proof ln_10_pos as H10.
  assert (0 < ln 2)%R as H2 by (rewrite <- ln_1; apply ln_increasing; lra).
  assert (ln 2 < ln 10)%R as H210 by (apply ln_increasing; lra).
  assert (0 < ln 2 / ln 10 < 1)%R as [Hlo Hhi].
  { split; [by apply Rdiv_lt_0_compat|].
    apply (Rmult_lt_reg_r (ln 10)); [done|]. field_simplify; lra. }
  rewrite <- (tech_up (- (ln 2 / ln 10)) 0); [done|simpl; lra..].
Qed.

Lemma string_app_assoc (s1 s2 s3 : string) :
  (s1 +:+ s2) +:+ s3 = s1 +:+ s2 +:+ s3.
Proof.
  induction s1 as [|a s1 IH]; [done|].
  change (String a ((s1 +:+ s2) +:+ s3) = String a (s1 +:+ s2 +:+ s3)).
  by rewrite IH.
Qed.

(** The key of a position is the three rendered components in a row. *)
Lemma hashOf_unfold positions m i :
  hashOf positions m i
  = numberString (roundedComponent positions m (i * 3))
    +:+ numberString (roundedComponent positions m (i * 3 + 1))
    +:+ numberString (roundedComponent positions m (i * 3 + 2)).
Proof.
  unfold hashOf; cbn. rewrite Nat.add_0_r.
  by rewrite string_app_assoc.
Qed.

(** Positions of one grid cell have one key, hence one canonical index. *)
Lemma hashOf_quantized positions m i j :
  quantized positions m i = quantized positions m j →
  hashOf positions m i = hashOf positions m j.
Proof.
  unfold quantized; simpl. rewrite !Nat.add_0_r. intros [= H0 H1 H2].
  by rewrite !hashOf_unfold, H0, H1, H2.
Qed.

Lemma same_cell_same_index positions tol i j :
  i < count positions → j < count positions →
  quantized positions (shiftMultiplierQ tol) i
    = quantized positions (shiftMultiplierQ tol) j →
  computeVerticesIndexArray positions tol !! i
    = computeVerticesIndexArray positions tol !! j.
Proof.
  intros Hi Hj Hcell%hashOf_quantized.
  destruct (computeVerticesIndexArray_first positions tol i Hi) as (c & -> & _ & Hc).
  destruct (computeVerticesIndexArray_first positions tol j Hj) as (d & -> & _ & Hd).
  rewrite Hcell in Hc. f_equal. by eapply isFirst_unique.
Qed.

(** C7, as the specification states it, fails at tolerance [1/2]: the
    source's multiplier is [2], the one with the ceiling is [10].  The
    difference shows: [0.3] and [0.4] are merged by the source, and would not
    be with the multiplier [10].  The last two facts say the same of the
    merger over the numbers [exactNumbers]. *)
Lemma shiftMultiplier_has_no_ceiling :
  shiftMultiplier (1 / 2) = 2%R
  ∧ specMultiplier (1 / 2) = 10%R
  ∧ shiftMultiplier (1 / 2) ≠ specMultiplier (1 / 2)
  ∧ computeVerticesIndexArray
      (pointsAttribute [(3 # 10, 0, 0); (4 # 10, 0, 0)]%Q) (1 # 2) = [0; 0]
  ∧ (mergeLoop (pointsAttribute [(3 # 10, 0, 0); (4 # 10, 0, 0)]%Q) 10 2).2 = [0; 1]
  ∧ Js.shiftMultiplier (N := exactNumbers) (Exact (1 # 2)) = Exact 2
  ∧ Js.computeVerticesIndexArray
      (exactAttribute (pointsAttribute [(3 # 10, 0, 0); (4 # 10, 0, 0)]%Q))
      (Exact (1 # 2)) = [0; 0].
Proof.
  assert (shiftMultiplier (1 / 2) = 2%R) as H1.
  { rewrite shiftMultiplier_exact by lra. field. }
  assert (specMultiplier (1 / 2) = 10%R) as H2.
  { unfold specMultiplier. replace (1 / (1 / 2))%R with 2%R by field.
    rewrite ceiling_log10_2. apply Rpower_1. lra. }
  split; [done|]. split; [done|]. split; [rewrite H1, H2; lra|].
  split; [by vm_compute|]. split; [by vm_compute|]. split; by vm_compute.
Qed.

(** * Properties of the vertex merger over the numbers of JavaScript *)

Section MergeBy.
Variable key : nat → string.

(** What the two variables of the loop hold after [n] turns, whatever the
    keys are. *)
Lemma mergeStepBy_spec n :
  let st := foldl (Js.mergeStepBy key) (∅, []) (seq 0 n) in
  length st.2 = n
  ∧ (∀ k j, st.1 !! k = Some j → j < n ∧ isFirst key k j)
  ∧ (∀ k, st.1 !! k = None → ∀ j, j < n → key j ≠ k)
  ∧ (∀ i, i < n → ∃ c, st.2 !! i = Some c ∧ c ≤ i ∧ isFirst key (key i) c).
Proof.
  induction n as [|n IH].
  { simpl. split; [done|]. split; [intros k j; by rewrite lookup_empty|].
    split; intros; lia. }
  cbv zeta in IH |- *. rewrite seq_S, foldl_app. simpl.
  destruct (foldl (Js.mergeStepBy key) (∅, []) (seq 0 n))
    as [hashMap indexArray]; simpl in *.
  destruct IH as (Hlen & Hsome & Hnone & Harr).
  unfold Js.mergeStepBy; simpl.
  destruct (hashMap !! key n) as [v|] eqn:Hlook; simpl.
  - destruct (Hsome _ _ Hlook) as [Hv Hfirst].
    split; [rewrite length_app; simpl; lia|].
    split; [intros k j Hk; destruct (Hsome _ _ Hk); split; [lia|done]|].
    split.
    + intros k Hk j Hj. destruct (decide (j = n)) as [->|].
      * intros <-. congruence.
      * apply Hnone; [done|lia].
    + intros i Hi. destruct (decide (i = n)) as [->|].
      * exists v. rewrite lookup_app_r, Hlen, Nat.sub_diag by lia.
        split; [done|]. split; [lia|done].
      * destruct (Harr i) as (c & ? & ? & ?); [lia|].
        exists c. by rewrite lookup_app_l by lia.
  - split; [rewrite length_app; simpl; lia|].
    split.
    { intros k j. destruct (decide (key n = k)) as [<-|Hne].
      - rewrite lookup_insert_eq. intros [= <-]. split; [lia|].
        split; [done|]. intros j' Hj'. by apply Hnone.
      - rewrite lookup_insert_ne by done. intros Hk.
        destruct (Hsome _ _ Hk). split; [lia|done]. }
    split.
    { intros k. destruct (decide (key n = k)) as [<-|Hne].
      - by rewrite lookup_insert_eq.
      - rewrite lookup_insert_ne by done. intros Hk j Hj.
        destruct (decide (j = n)) as [->|]; [done|]. apply Hnone; [done|lia]. }
    intros i Hi. destruct (decide (i = n)) as [->|].
    + exists n. rewrite lookup_app_r, Hlen, Nat.sub_diag by lia.
      split; [done|]. split; [lia|]. split; [done|].
      intros j' Hj'. by apply Hnone.
    + destruct (Harr i) as (c & ? & ? & ?); [lia|].
      exists c. by rewrite lookup_app_l by lia.
Qed.
End MergeBy.

(** The loop [for (i = 0; i < bound; i++)] goes through the naturals below
    the bound. *)
Lemma elem_of_forRange bound i :
  i ∈ forRange bound ↔ (inject_Z (Z.of_nat i) < bound)%Q.
Proof.
  unfold forRange. rewrite elem_of_seq. split.
  - intros [_ Hi].
    apply Qle_lt_trans with (inject_Z (Qceiling bound - 1)); [|apply Qceiling_lt].
    rewrite <- Zle_Qle. lia.
  - intros Hi. split; [lia|].
    assert (Z.of_nat i < Qceiling bound)%Z; [|lia].
    rewrite Zlt_Qlt. eapply Qlt_le_trans; [exact Hi|apply Qle_ceiling].
Qed.

Lemma length_forRange bound i :
  i < length (forRange bound) ↔ (inject_Z (Z.of_nat i) < bound)%Q.
Proof.
  rewrite <- elem_of_forRange. unfold forRange.
  rewrite length_seq, elem_of_seq. lia.
Qed.

Lemma forRange_whole (n : nat) : forRange (inject_Z (Z.of_nat n)) = seq 0 n.
Proof. unfold forRange. by rewrite Qceiling_Z, Nat2Z.id. Qed.

Section JsMerger.
Context {N : Js.Numbers}.
Variable positions : Js.Attribute N.
Variable tolerance : Js.number N.

Let key := Js.hashOf positions (Js.shiftMultiplier tolerance).

Lemma Js_computeVerticesIndexArray_length :
  length (Js.computeVerticesIndexArray positions tolerance)
  = length (forRange (Js.count positions)).
Proof.
  unfold Js.computeVerticesIndexArray, Js.mergeStep, forRange.
  rewrite length_seq. apply mergeStepBy_spec.
Qed.

(** Entry [i] of the result is the first position with the key of [i]. *)
Lemma Js_computeVerticesIndexArray_first i :
  i < length (forRange (Js.count positions)) →
  ∃ c, Js.computeVerticesIndexArray positions tolerance !! i = Some c
       ∧ c ≤ i
       ∧ isFirst key (key i) c.
Proof.
  unfold Js.computeVerticesIndexArray, Js.mergeStep, forRange.
  rewrite length_seq. intros Hi. by apply mergeStepBy_spec.
Qed.

(** The key of a position is the strings of its three rounded, scaled
    components in a row. *)
Lemma Js_hashOf_unfold m i :
  Js.hashOf positions m i
  = Js.toString N (Js.Math_round N (Js.scaledComponent positions m (i * 3)))
    +:+ Js.toString N (Js.Math_round N (Js.scaledComponent positions m (i * 3 + 1)))
    +:+ Js.toString N (Js.Math_round N (Js.scaledComponent positions m (i * 3 + 2))).
Proof.
  unfold Js.hashOf; cbn. rewrite Nat.add_0_r.
  by rewrite string_app_assoc.
Qed.
End JsMerger.

(** C10, as stated, fails on an attribute whose array is not made of whole
    items: four numbers with the item size 3 have the count [4/3], and the
    result has two entries, one for each natural below the count. *)
Lemma fractional_count_two_entries :
  Js.count fourNumbers = 4 # 3
  ∧ Js.computeVerticesIndexArray fourNumbers (Exact 1) = [0; 1]
  ∧ ¬ (inject_Z (Z.of_nat (length (Js.computeVerticesIndexArray fourNumbers (Exact 1))))
       == Js.count fourNumbers)%Q.
Proof. split; [done|]. split; [by vm_compute|]. by vm_compute. Qed.

(** C10, amended: the result has one entry for every natural below the
    count (as many as the count when it is whole), and it is an idempotent
    retraction onto first occurrences: entry [i] is the first index [c]
    whose key is the key of [i], so [c <= i], and entry [c] is [c] itself.
    This holds whatever the numbers and the operations on them are. *)
Theorem indexArray_first_occurrence (N : Js.Numbers) (positions : Js.Attribute N)
    (tolerance : Js.number N) :
  let indexArray := Js.computeVerticesIndexArray positions tolerance in
  let key := Js.hashOf positions (Js.shiftMultiplier tolerance) in
  (∀ i, i < length indexArray ↔ (inject_Z (Z.of_nat i) < Js.count positions)%Q)
  ∧ (∀ n, (Js.count positions == inject_Z (Z.of_nat n))%Q → length indexArray = n)
  ∧ ∀ i, i < length indexArray →
      ∃ c, indexArray !! i = Some c
           ∧ c ≤ i
           ∧ isFirst key (key i) c
           ∧ indexArray !! c = Some c.
Proof.
  intros indexArray key. subst indexArray key.
  rewrite Js_computeVerticesIndexArray_length.
  split; [intros i; apply length_forRange|]. split.
  - intros n Hn. unfold forRange.
    by rewrite length_seq, Hn, Qceiling_Z, Nat2Z.id.
  - intros i Hi.
    destruct (Js_computeVerticesIndexArray_first positions tolerance i Hi)
      as (c & Hc & Hle & Hfirst).
    exists c. split; [done|]. split; [done|]. split; [done|].
    destruct (Js_computeVerticesIndexArray_first positions tolerance c)
      as (c' & Hc' & Hle' & Hkey' & Hmin'); [lia|].
    rewrite Hc'. f_equal.
    destruct Hfirst as [Hkey Hmin].
    destruct (decide (c' = c)) as [|Hne]; [done|].
    destruct (Hmin c'); [lia|]. by rewrite Hkey', Hkey.
Qed.

Lemma indexArray_first_occurrence_witness :
  length (Js.computeVerticesIndexArray fourNumbers (Exact 1)) = 2
  ∧ ∃ c, Js.computeVerticesIndexArray fourNumbers (Exact 1) !! 1 = Some c
         ∧ c ≤ 1
         ∧ isFirst
             (Js.hashOf fourNumbers (Js.shiftMultiplier (N := exactNumbers) (Exact 1)))
             (Js.hashOf fourNumbers (Js.shiftMultiplier (N := exactNumbers) (Exact 1)) 1)
             c
         ∧ Js.computeVerticesIndexArray fourNumbers (Exact 1) !! c = Some c.
Proof.
  destruct (indexArray_first_occurrence exactNumbers fourNumbers (Exact 1))
    as (Hlen & _ & Hidx).
  split; [reflexivity|]. apply Hidx. apply Hlen. reflexivity.
Defined.

(** The merger over exact rationals is the merger over the numbers
    [exactNumbers], at a whole count. *)
Lemma shiftMultiplier_exactNumbers tol :
  Js.shiftMultiplier (N := exactNumbers) (Exact tol) = Exact (shiftMultiplierQ tol).
Proof. reflexivity. Qed.

Lemma hashOf_exact positions m i :
  hashOf positions m i = Js.hashOf (exactAttribute positions) (Exact m) i.
Proof.
  rewrite hashOf_unfold, Js_hashOf_unfold.
  assert (∀ k, numberString (roundedComponent positions m k)
               = Js.toString exactNumbers
                   (Js.Math_round exactNumbers
                      (Js.scaledComponent (exactAttribute positions) (Exact m) k)))
    as Hc; [|by rewrite !Hc].
  intros k. unfold roundedComponent, Js.scaledComponent, exactAttribute. simpl.
  rewrite list_lookup_fmap. destruct (array positions !! k) as [x|]; simpl; [|done].
  by rewrite Z.div_1_r.
Qed.

Lemma foldl_ext_all {A B} (f g : A → B → A) (l : list B) (a : A) :
  (∀ a b, f a b = g a b) → foldl f a l = foldl g a l.
Proof.
  intros Hfg. revert a. induction l as [|b l IH]; intros a; simpl; [done|].
  by rewrite Hfg, IH.
Qed.

Lemma computeVerticesIndexArray_exact positions tol :
  computeVerticesIndexArray positions tol
  = Js.computeVerticesIndexArray (exactAttribute positions) (Exact tol).
Proof.
  unfold computeVerticesIndexArray, Js.computeVerticesIndexArray, mergeLoop.
  rewrite shiftMultiplier_exactNumbers.
  change (Js.count (exactAttribute positions))
    with (inject_Z (Z.of_nat (count positions))).
  rewrite forRange_whole. f_equal. apply foldl_ext_all.
  intros st i. unfold mergeStep, Js.mergeStep, Js.mergeStepBy.
  by rewrite hashOf_exact.
Qed.

(** *** Exact numbers and doubles

    The two differ where a product or the multiplier is rounded.  The
    double [0.15 * 10] is [1.5], which [Math.round] takes to [2]; the double
    [0.15] is less than [15/100], and the exact product is rounded to [1]. *)
Example rounded_product_of_doubles :
  roundDouble (PrimFloat.mul fifteenHundredths (Z2double 10)) = Z2double 2
  ∧ ∃ q, FloatOps.Prim2SF fifteenHundredths
         = SpecFloat.S754_finite false 5404319552844595 (-55)
         ∧ q = (inject_Z 5404319552844595 * (2 # 1) ^ (-55))%Q
         ∧ (q < 15 # 100)%Q
         ∧ Math_round (q * 10) = 1%Z.
Proof.
  split; [by vm_compute|]. eexists. split; [by vm_compute|].
  split; [reflexivity|]. split; by vm_compute.
Qed.

(** At the tolerance [1/8], an engine whose [Math.pow(10, Math.log10(8))]
    is the double just below [8] (it prints as [7.999999999999999]) keeps
    [1/16] and [0] together and [1/8] apart; with the exact multiplier [8],
    [1/16] and [1/8] go together. *)
Lemma merger_of_doubles_at_one_eighth log10 pow render :
  pow (Z2double 10) (log10 (PrimFloat.div (Z2double 1) oneEighth))
    = PrimFloat.next_down (Z2double 8) →
  Js.computeVerticesIndexArray
    (threeOnAxis (doubles log10 pow render) oneSixteenth oneEighth (Z2double 0))
    oneEighth
  = [0; 1; 0].
Proof.
  intros Hpow.
  unfold Js.computeVerticesIndexArray, Js.mergeStep, Js.shiftMultiplier,
    Js.decimalShift.
  cbn [Js.Math_pow Js.Math_log10 Js.divide Js.one Js.ten doubles].
  rewrite Hpow. by vm_compute.
Qed.

Example merger_of_exact_numbers_at_one_eighth :
  Js.computeVerticesIndexArray
    (threeOnAxis exactNumbers (Exact (1 # 16)) (Exact (1 # 8)) (Exact 0))
    (Exact (1 # 8))
  = [0; 0; 2]
  ∧ computeVerticesIndexArray
      (pointsAttribute [(1 # 16, 0, 0); (1 # 8, 0, 0); (0, 0, 0)]%Q) (1 # 8)
    = [0; 0; 2].
Proof. split; by vm_compute. Qed.

(** C7, amended: the multiplier is [Math.pow(10, Math.log10(1 / tolerance))],
    with no ceiling; the key of a position is made of the strings of its
    three components, each multiplied by the multiplier and rounded, in the
    order x, y, z; and the result maps a position to the first one with its
    key.  This holds whatever the numbers and the operations on them are. *)
Theorem keys_of_rounded_scaled_components (N : Js.Numbers)
    (positions : Js.Attribute N) (tolerance : Js.number N) (i : nat) :
  let shiftMultiplier :=
    Js.Math_pow N (Js.ten N) (Js.Math_log10 N (Js.divide N (Js.one N) tolerance)) in
  let component k :=
    Js.toString N
      (Js.Math_round N
         match Js.array positions !! k with
         | Some x => Js.times N x shiftMultiplier
         | None => Js.NaN N
         end) in
  let key p := component (p * 3) +:+ component (p * 3 + 1) +:+ component (p * 3 + 2) in
  (inject_Z (Z.of_nat i) < Js.count positions)%Q →
  ∃ c, Js.computeVerticesIndexArray positions tolerance !! i = Some c
       ∧ isFirst key (key i) c.
Proof.
  intros shiftMultiplier component key Hi.
  apply length_forRange in Hi.
  destruct (Js_computeVerticesIndexArray_first positions tolerance i Hi)
    as (c & Hc & _ & Hkey & Hmin).
  assert (∀ p, Js.hashOf positions (Js.shiftMultiplier tolerance) p = key p) as Hk
    by (intros p; apply Js_hashOf_unfold).
  exists c. split; [done|]. split.
  - by rewrite <- !Hk.
  - intros j Hj. rewrite <- !Hk. by apply Hmin.
Qed.

Lemma keys_of_rounded_scaled_components_witness :
  ∃ c, Js.computeVerticesIndexArray fourNumbers (Exact 1) !! 1 = Some c.
Proof.
  destruct (keys_of_rounded_scaled_components exactNumbers fourNumbers (Exact 1) 1)
    as (c & Hc & _).
  - reflexivity.
  - exists c. exact Hc.
Defined.

(** * Properties of the builder *)

Lemma alter_snoc {A} (f : A → A) (l : list A) (x : A) :
  alter f (length l) (l ++ [x]) = l ++ [f x].
Proof.
  rewrite <- (Nat.add_0_r (length l)) at 1. by rewrite alter_app_r.
Qed.

Lemma fmap_alter_preserved {A B} (f : A → B) (g : A → A) (l : list A) i :
  (∀ x, f (g x) = f x) → f <$> alter g i l = f <$> l.
Proof.
  intros Hfg. rewrite (list_fmap_alter f g (λ y, y)).
  - by apply list_alter_id.
  - by apply Forall_forall.
Qed.

Lemma wireSide_twin loopHalfedges f hs i :
  Halfedge.twin <$> wireSide loopHalfedges f hs i = Halfedge.twin <$> hs.
Proof.
  unfold wireSide. destruct (_ !! i); [|done]. destruct (_ !! _); [|done].
  by rewrite !fmap_alter_preserved.
Qed.

Lemma wireSide_vertex loopHalfedges f hs i :
  Halfedge.vertex <$> wireSide loopHalfedges f hs i = Halfedge.vertex <$> hs.
Proof.
  unfold wireSide. destruct (_ !! i); [|done]. destruct (_ !! _); [|done].
  by rewrite !fmap_alter_preserved.
Qed.

Lemma wire_twin_vertex loopHalfedges f sides hs :
  Halfedge.twin <$> foldl (wireSide loopHalfedges f) hs sides = Halfedge.twin <$> hs
  ∧ Halfedge.vertex <$> foldl (wireSide loopHalfedges f) hs sides
    = Halfedge.vertex <$> hs.
Proof.
  revert hs. induction sides as [|i sides IH]; intros hs; simpl; [done|].
  destruct (IH (wireSide loopHalfedges f hs i)) as [-> ->].
  by rewrite wireSide_twin, wireSide_vertex.
Qed.

Lemma lazyOutgoing_id h v : Vertex.id (lazyOutgoing h v) = Vertex.id v.
Proof. unfold lazyOutgoing. by destruct (Vertex.halfedge v). Qed.

Lemma lazyOutgoing_position h v :
  Vertex.position (lazyOutgoing h v) = Vertex.position v.
Proof. unfold lazyOutgoing. by destruct (Vertex.halfedge v). Qed.

(** *** Nothing is lost along a build *)

Lemma storeKept_refl ds : storeKept ds ds.
Proof. unfold storeKept. by split_and!. Qed.

Lemma storeKept_trans ds1 ds2 ds3 :
  storeKept ds1 ds2 → storeKept ds2 ds3 → storeKept ds1 ds3.
Proof.
  intros (? & ? & ? & ? & ? & ?) (? & ? & ? & ? & ? & ?).
  unfold storeKept. split_and!; [congruence|by etrans..].
Qed.

Lemma stateKept_refl st : stateKept st st.
Proof. split; [apply storeKept_refl|done]. Qed.

Lemma stateKept_trans st1 st2 st3 :
  stateKept st1 st2 → stateKept st2 st3 → stateKept st1 st3.
Proof.
  intros [? ?] [? ?]. split; [by eapply storeKept_trans|by etrans].
Qed.

Lemma logReads_kept rs st : stateKept st (logReads rs st).
Proof. split; [apply storeKept_refl|]. by apply prefix_app_r. Qed.

Section Builder.
Variable positions : BufferAttribute.
Variable indexVertexArray : list nat.
Variable indexBuffer : option IndexAttribute.

(** *** What the steps change *)

Lemma resolveVertex_frame i1 st st' v :
  resolveVertex positions i1 st = (st', v) →
  halfedgeMap st' = halfedgeMap st
  ∧ halfedges (store st') = halfedges (store st)
  ∧ faces (store st') = faces (store st)
  ∧ tolerance (store st') = tolerance (store st).
Proof.
  unfold resolveVertex. destruct (vertexMap st !! i1); intros [= <- <-]; done.
Qed.

Lemma resolveVertex_kept i1 st st' v :
  resolveVertex positions i1 st = (st', v) → stateKept st st'.
Proof.
  unfold resolveVertex.
  destruct (vertexMap st !! i1); intros [= <- <-]; [apply stateKept_refl|].
  split; simpl; [|by apply prefix_app_r].
  rewrite alter_snoc. unfold storeKept; simpl. rewrite !fmap_app.
  split_and!; try done; by apply prefix_app_r.
Qed.

Lemma resolveEdge_frame i1 i2 v1 v2 st st' o :
  resolveEdge i1 i2 v1 v2 st = (st', o) →
  vertexMap st' = vertexMap st
  ∧ length (vertices (store st')) = length (vertices (store st))
  ∧ faces (store st') = faces (store st)
  ∧ tolerance (store st') = tolerance (store st)
  ∧ reads st' = reads st.
Proof.
  unfold resolveEdge, addEdge.
  destruct (halfedgeMap st !! edgeHash i1 i2); [by intros [= <- <-]|].
  case_decide; intros [= <- <-]; [done|].
  simpl. by rewrite !length_alter.
Qed.

(** [addEdge] is the only thing that throws on a side, and it throws before
    it changes anything. *)
Lemma resolveEdge_kept i1 i2 v1 v2 st st' o :
  resolveEdge i1 i2 v1 v2 st = (st', o) →
  stateKept st st'
  ∧ ∀ e, o = inl e → e = NonManifoldConstructionError ∧ st' = st.
Proof.
  unfold resolveEdge, addEdge.
  destruct (halfedgeMap st !! edgeHash i1 i2);
    [intros [= <- <-]; split; [apply stateKept_refl|done]|].
  case_decide; intros [= <- <-].
  - split; [apply stateKept_refl|]. by intros e [= <-].
  - split; [|done]. split; [|done]. unfold storeKept; simpl.
    rewrite !(fmap_alter_preserved Vertex.id) by apply lazyOutgoing_id.
    rewrite !(fmap_alter_preserved Vertex.position) by apply lazyOutgoing_position.
    rewrite !fmap_app. split_and!; try done; by apply prefix_app_r.
Qed.

Lemma resolveSide_kept faceIndex i st st' o :
  resolveSide positions indexVertexArray indexBuffer faceIndex i st = (st', o) →
  stateKept st st'
  ∧ faces (store st') = faces (store st)
  ∧ ∀ e, o = inl e → e = NonManifoldConstructionError.
Proof.
  unfold resolveSide.
  destruct (sideIndices _ _ _ _) as [i1 i2].
  destruct (resolveVertex positions i1 _) as [st1 v1] eqn:H1.
  destruct (resolveVertex positions i2 _) as [st2 v2] eqn:H2.
  intros H3.
  pose proof (resolveVertex_kept _ _ _ _ H1) as K1.
  pose proof (resolveVertex_kept _ _ _ _ H2) as K2.
  destruct (resolveVertex_frame _ _ _ _ H1) as (_ & _ & Hf1 & _).
  destruct (resolveVertex_frame _ _ _ _ H2) as (_ & _ & Hf2 & _).
  destruct (resolveEdge_frame _ _ _ _ _ _ _ H3) as (_ & _ & Hf3 & _).
  destruct (resolveEdge_kept _ _ _ _ _ _ _ H3) as [K3 He].
  split.
  - eapply stateKept_trans; [apply logReads_kept|].
    eapply stateKept_trans; [exact K1|].
    eapply stateKept_trans; [apply logReads_kept|].
    eapply stateKept_trans; [exact K2|exact K3].
  - simpl in Hf1, Hf2. split; [congruence|]. intros e Ho. by destruct (He e Ho).
Qed.

Lemma resolveSidesFrom_kept faceIndex sides st loopHalfedges st' o :
  resolveSidesFrom positions indexVertexArray indexBuffer faceIndex sides st
    loopHalfedges = (st', o) →
  stateKept st st'
  ∧ faces (store st') = faces (store st)
  ∧ ∀ e, o = inl e → e = NonManifoldConstructionError.
Proof.
  revert st loopHalfedges.
  induction sides as [|i sides IH]; intros st loopHalfedges; simpl.
  { intros [= <- <-]. split; [apply stateKept_refl|done]. }
  destruct (resolveSide _ _ _ faceIndex i st) as [st1 [e|h1]] eqn:H1.
  - intros [= <- <-].
    destruct (resolveSide_kept _ _ _ _ _ H1) as (K1 & Hf1 & He).
    split; [done|]. split; [done|]. intros e' [= <-]. by apply He.
  - intros Hrest.
    destruct (resolveSide_kept _ _ _ _ _ H1) as (K1 & Hf1 & _).
    destruct (IH _ _ Hrest) as (K & Hf & He).
    split; [by eapply stateKept_trans|]. split; [congruence|done].
Qed.

(** A face step that throws leaves the faces as they were; one that does
    not adds one face.  Either way nothing is lost. *)
Lemma buildFace_kept st st' faceIndex o :
  buildFace positions indexVertexArray indexBuffer st faceIndex = (st', o) →
  stateKept st st'
  ∧ match o with
    | Some e => e = NonManifoldConstructionError
                ∧ faces (store st') = faces (store st)
    | None => length (faces (store st')) = S (length (faces (store st)))
    end.
Proof.
  unfold buildFace, resolveSides.
  destruct (resolveSidesFrom _ _ _ faceIndex _ st []) as [st1 [e|l]] eqn:H1.
  - intros [= <- <-].
    destruct (resolveSidesFrom_kept _ _ _ _ _ _ H1) as (K1 & Hf1 & He).
    split; [done|]. split; [by apply He|done].
  - destruct (resolveSidesFrom_kept _ _ _ _ _ _ H1) as (K1 & Hf1 & _).
    unfold addFace. case_decide as Hex; intros [= <- <-].
    + split; [done|]. done.
    + split; [|simpl; rewrite length_alter, length_app, Hf1; simpl; lia].
      eapply stateKept_trans; [exact K1|].
      split; [|done]. unfold storeKept; simpl. rewrite alter_snoc.
      destruct (wire_twin_vertex l (length (faces (store st1)))
                  (seq 0 (length l)) (halfedges (store st1))) as [-> ->].
      split_and!; try done. by apply prefix_app_r.
Qed.

Lemma faceLoop_kept faceIndices st st' o :
  faceLoop positions indexVertexArray indexBuffer faceIndices st = (st', o) →
  stateKept st st'
  ∧ match o with
    | Some e => e = NonManifoldConstructionError
                ∧ length (faces (store st'))
                  < length (faces (store st)) + length faceIndices
    | None => length (faces (store st'))
              = length (faces (store st)) + length faceIndices
    end.
Proof.
  revert st. induction faceIndices as [|f rest IH]; intros st; simpl.
  { intros [= <- <-]. split; [apply stateKept_refl|lia]. }
  destruct (buildFace _ _ _ st f) as [st1 [e|]] eqn:Hface.
  - intros [= <- <-].
    destruct (buildFace_kept _ _ _ _ Hface) as (K1 & -> & Hf).
    split; [done|]. split; [done|]. rewrite Hf. lia.
  - intros Hrest.
    destruct (buildFace_kept _ _ _ _ Hface) as (K1 & Hf).
    destruct (IH _ Hrest) as (K & Ho).
    split; [by eapply stateKept_trans|].
    destruct o as [e|]; [destruct Ho as [-> Ho]; split; [done|]|]; lia.
Qed.

Lemma faceLoop_app l1 l2 st :
  faceLoop positions indexVertexArray indexBuffer (l1 ++ l2) st
  = match faceLoop positions indexVertexArray indexBuffer l1 st with
    | (st', Some e) => (st', Some e)
    | (st', None) => faceLoop positions indexVertexArray indexBuffer l2 st'
    end.
Proof.
  revert st. induction l1 as [|f l1 IH]; intros st; simpl; [done|].
  destruct (buildFace _ _ _ st f) as [st1 [e|]]; [done|]. apply IH.
Qed.

(** A loop over the faces that throws has built the faces before one of
    them, and throws in the step of this one. *)
Lemma faceLoop_failure faceIndices st st' e :
  faceLoop positions indexVertexArray indexBuffer faceIndices st = (st', Some e) →
  ∃ k faceIndex st1,
    faceIndices !! k = Some faceIndex
    ∧ faceLoop positions indexVertexArray indexBuffer (take k faceIndices) st
      = (st1, None)
    ∧ buildFace positions indexVertexArray indexBuffer st1 faceIndex = (st', Some e).
Proof.
  revert st. induction faceIndices as [|f rest IH]; intros st; simpl; [done|].
  destruct (buildFace _ _ _ st f) as [st1 [e1|]] eqn:Hface.
  - intros [= <- <-]. by exists 0, f, st.
  - intros Hrest. destruct (IH _ Hrest) as (k & g & st2 & Hk & Hpre & Hg).
    exists (S k), g, st2. simpl. by rewrite Hface.
Qed.
End Builder.

Lemma buildFromGeometry_tolerance this geometry :
  tolerance (buildFromGeometry this geometry).1 = tolerance this.
Proof.
  unfold buildFromGeometry, buildRun.
  destruct (position geometry) as [positions|]; [|done]. simpl.
  destruct (faceLoop _ _ _ _ _) as [st e] eqn:Hloop; simpl.
  by destruct (faceLoop_kept _ _ _ _ _ _ _ Hloop) as [[[-> _] _] _].
Qed.

(** *** Failure *)

(** C4, as the specification states it, fails on the doubled triangle: the
    second face throws, and the store keeps the three vertices, six halfedges
    and one face made before. *)
Lemma failed_build_leaves_entities :
  (buildFromGeometry (newHalfedgeDS 1) doubledTriangle).2
    = Some NonManifoldConstructionError
  ∧ length (vertices (buildFromGeometry (newHalfedgeDS 1) doubledTriangle).1) = 3
  ∧ length (halfedges (buildFromGeometry (newHalfedgeDS 1) doubledTriangle).1) = 6
  ∧ length (faces (buildFromGeometry (newHalfedgeDS 1) doubledTriangle).1) = 1.
Proof. by vm_compute. Qed.

(** A build can also fail before any halfedge is made: the first side of
    the face [A, A, B] goes from a vertex to itself, [addEdge] throws, and
    the store keeps the one vertex made before. *)
Example pinched_build_leaves_a_vertex :
  is_Some (buildFromGeometry (newHalfedgeDS 1) pinchedGeometry).2
  ∧ length (vertices (buildFromGeometry (newHalfedgeDS 1) pinchedGeometry).1) = 1
  ∧ halfedges (buildFromGeometry (newHalfedgeDS 1) pinchedGeometry).1 = []
  ∧ faces (buildFromGeometry (newHalfedgeDS 1) pinchedGeometry).1 = [].
Proof. split; [by eexists|by vm_compute]. Qed.

(** C4, amended: a build that fails for want of a position attribute leaves
    the three collections empty.  A build that fails otherwise fails in the
    step of some face [k], after the [k] faces before it were built, and
    nothing is rolled back: the store is left as it stands when this step
    throws; the vertices, halfedges and faces that it held when these [k]
    faces were built are still the ones it begins with, and its faces are
    exactly these [k] faces. *)
Theorem failed_build_keeps_entities this geometry ds e :
  buildFromGeometry this geometry = (ds, Some e) →
  (position geometry = None →
     vertices ds = [] ∧ halfedges ds = [] ∧ faces ds = [])
  ∧ (∀ positions, position geometry = Some positions →
       ∃ k st st',
         k ∈ forRange (nbOfFaces positions (index geometry))
         ∧ faceLoop positions
             (computeVerticesIndexArray positions (tolerance this))
             (index geometry) (seq 0 k) (initialState this) = (st, None)
         ∧ buildFace positions
             (computeVerticesIndexArray positions (tolerance this))
             (index geometry) st k = (st', Some e)
         ∧ ds = store st'
         ∧ storeKept (store st) ds
         ∧ faces ds = faces (store st)
         ∧ length (faces ds) = k).
Proof.
  unfold buildFromGeometry, buildRun.
  destruct (position geometry) as [positions|].
  - destruct (faceLoop _ _ _ _ _) as [st' o] eqn:Hloop. simpl.
    intros [= <- ->]. split; [done|]. intros ? [= <-].
    destruct (faceLoop_failure _ _ _ _ _ _ _ Hloop)
      as (k & f & st1 & Hk & Hpre & Hface).
    unfold forRange in Hk, Hpre |- *.
    apply lookup_seq in Hk as [-> Hk]. simpl in Hk.
    rewrite take_seq, Nat.min_l in Hpre by lia.
    destruct (buildFace_kept _ _ _ _ _ _ _ Hface) as ([Hkept _] & _ & Hfaces).
    destruct (faceLoop_kept _ _ _ _ _ _ _ Hpre) as [_ Hlen].
    rewrite length_seq in Hlen. simpl in Hlen.
    exists k, st1, st'. split; [apply elem_of_seq; lia|].
    split; [done|]. split; [done|]. split; [done|].
    split; [done|]. split; [done|]. by rewrite Hfaces.
  - simpl. intros [= <- <-]. split; [done|]. by intros ? [=].
Qed.

Lemma failed_build_keeps_entities_witness :
  (vertices (clear (newHalfedgeDS 1)) = []
   ∧ halfedges (clear (newHalfedgeDS 1)) = []
   ∧ faces (clear (newHalfedgeDS 1)) = [])
  ∧ ∃ k st st',
      k ∈ forRange (nbOfFaces
                      (pointsAttribute
                         [(0, 0, 0); (1, 0, 0); (0, 1, 0);
                          (0, 0, 0); (1, 0, 0); (0, 1, 0)]%Q) None)
      ∧ faceLoop
          (pointsAttribute
             [(0, 0, 0); (1, 0, 0); (0, 1, 0); (0, 0, 0); (1, 0, 0); (0, 1, 0)]%Q)
          (computeVerticesIndexArray
             (pointsAttribute
                [(0, 0, 0); (1, 0, 0); (0, 1, 0); (0, 0, 0); (1, 0, 0); (0, 1, 0)]%Q)
             (tolerance (newHalfedgeDS 1)))
          None (seq 0 k) (initialState (newHalfedgeDS 1)) = (st, None)
      ∧ buildFace
          (pointsAttribute
             [(0, 0, 0); (1, 0, 0); (0, 1, 0); (0, 0, 0); (1, 0, 0); (0, 1, 0)]%Q)
          (computeVerticesIndexArray
             (pointsAttribute
                [(0, 0, 0); (1, 0, 0); (0, 1, 0); (0, 0, 0); (1, 0, 0); (0, 1, 0)]%Q)
             (tolerance (newHalfedgeDS 1)))
          None st k = (st', Some NonManifoldConstructionError)
      ∧ (buildFromGeometry (newHalfedgeDS 1) doubledTriangle).1 = store st'
      ∧ storeKept (store st) (buildFromGeometry (newHalfedgeDS 1) doubledTriangle).1
      ∧ faces (buildFromGeometry (newHalfedgeDS 1) doubledTriangle).1
        = faces (store st)
      ∧ length (faces (buildFromGeometry (newHalfedgeDS 1) doubledTriangle).1) = k.
Proof.
  split.
  - apply (failed_build_keeps_entities (newHalfedgeDS 1) emptyGeometry
             (clear (newHalfedgeDS 1))
             (Error "BufferGeometry does not have a position BufferAttribute.")).
    + reflexivity.
    + reflexivity.
  - apply (failed_build_keeps_entities (newHalfedgeDS 1) doubledTriangle
             (buildFromGeometry (newHalfedgeDS 1) doubledTriangle).1
             NonManifoldConstructionError).
    + vm_compute. reflexivity.
    + reflexivity.
Defined.

(** C5, as the specification states it, fails: without position attribute
    the source throws a plain [Error], not an error of a class
    [MissingAttributeError]. *)
Lemma missing_position_throws_plain_Error :
  position emptyGeometry = None
  ∧ (buildFromGeometry (newHalfedgeDS 1) emptyGeometry).2
    = Some (Error "BufferGeometry does not have a position BufferAttribute.")
  ∧ errorType (Error "BufferGeometry does not have a position BufferAttribute.")
    ≠ "MissingAttributeError".
Proof. split; [done|]. split; [done|]. by vm_compute. Qed.

(** C5, amended: a geometry without position attribute makes
    [buildFromGeometry] throw a plain [Error] with the message "BufferGeometry
    does not have a position BufferAttribute."; with a position attribute no
    [Error] of the kind is thrown. *)
Theorem missing_position_error this geometry :
  (position geometry = None →
     (buildFromGeometry this geometry).2
     = Some (Error "BufferGeometry does not have a position BufferAttribute."))
  ∧ (is_Some (position geometry) →
     ∀ message, (buildFromGeometry this geometry).2 ≠ Some (Error message)).
Proof.
  unfold buildFromGeometry, buildRun.
  destruct (position geometry) as [positions|].
  - split; [done|]. intros _ message.
    destruct (faceLoop _ _ _ _ _) as [st o] eqn:Hloop; simpl. intros ->.
    by destruct (faceLoop_kept _ _ _ _ _ _ _ Hloop) as [_ [? _]].
  - split; [done|]. by intros [? ?].
Qed.

Lemma missing_position_error_witness :
  (buildFromGeometry (newHalfedgeDS 1) emptyGeometry).2
  = Some (Error "BufferGeometry does not have a position BufferAttribute.")
  ∧ (buildFromGeometry (newHalfedgeDS 1) doubledTriangle).2 ≠ Some (Error "").
Proof.
  split.
  - apply (missing_position_error (newHalfedgeDS 1) emptyGeometry). reflexivity.
  - apply (missing_position_error (newHalfedgeDS 1) doubledTriangle).
    simpl. eexists. reflexivity.
Defined.

(** *** Building from scratch *)

Lemma buildFromGeometry_clear this geometry :
  buildFromGeometry this geometry = buildFromGeometry (clear this) geometry.
Proof. reflexivity. Qed.

(** C8: the outcome of a build (the store it leaves and the exception, if
    any) depends on the geometry and the tolerance only, not on what the
    store held before; in particular a second build on the store the first
    one left gives the same store and the same exception. *)
Theorem build_independent_of_prior_store this1 this2 geometry :
  tolerance this1 = tolerance this2 →
  buildFromGeometry this1 geometry = buildFromGeometry this2 geometry
  ∧ buildFromGeometry (buildFromGeometry this1 geometry).1 geometry
    = buildFromGeometry this1 geometry.
Proof.
  assert (∀ a b, tolerance a = tolerance b →
            buildFromGeometry a geometry = buildFromGeometry b geometry) as Hdep.
  { intros a b Hab.
    rewrite (buildFromGeometry_clear a), (buildFromGeometry_clear b).
    unfold clear. by rewrite Hab. }
  intros Htol. split; [by apply Hdep|].
  apply Hdep, buildFromGeometry_tolerance.
Qed.

Lemma build_independent_of_prior_store_witness :
  buildFromGeometry (buildFromGeometry (newHalfedgeDS 1) doubledTriangle).1
    (triSoup [(0, 0, 0); (1, 0, 0); (0, 1, 0)]%Q)
  = buildFromGeometry (newHalfedgeDS 1) (triSoup [(0, 0, 0); (1, 0, 0); (0, 1, 0)]%Q).
Proof.
  refine (proj1 (build_independent_of_prior_store
                   (buildFromGeometry (newHalfedgeDS 1) doubledTriangle).1
                   (newHalfedgeDS 1)
                   (triSoup [(0, 0, 0); (1, 0, 0); (0, 1, 0)]%Q) _)).
  vm_compute. reflexivity.
Defined.

(** *** Reads *)

Lemma elem_of_forRange_third n i : i ∈ forRange (third n) ↔ i * 3 < n.
Proof.
  unfold forRange, third, Qceiling, Qfloor. rewrite elem_of_seq. simpl.
  rewrite Z.mul_1_r. change (Z.pos (1 * 3)) with 3%Z.
  pose proof (Z.div_mod (- Z.of_nat n) 3 ltac:(lia)) as Hdm.
  pose proof (Z.mod_pos_bound (- Z.of_nat n) 3 ltac:(lia)) as Hb.
  lia.
Qed.

Lemma elem_of_forRange_nbOfFaces positions indexBuffer faceIndex :
  faceIndex ∈ forRange (nbOfFaces positions indexBuffer) ↔
  faceIndex * 3 < cornerCount positions indexBuffer.
Proof. unfold nbOfFaces. destruct indexBuffer; apply elem_of_forRange_third. Qed.

Lemma readsInBounds_corner positions tol indexBuffer bufferIndex :
  wellIndexed positions indexBuffer →
  bufferIndex < cornerCount positions indexBuffer →
  readsInBounds positions (computeVerticesIndexArray positions tol)
    indexBuffer bufferIndex.
Proof.
  intros [Harr Hidx] Hb. unfold readsInBounds, getVertexIndex.
  rewrite computeVerticesIndexArray_length.
  destruct indexBuffer as [ib|]; unfold cornerCount in Hb.
  - destruct Hidx as (_ & Hlen & Hval).
    destruct (lookup_lt_is_Some_2 (index_array ib) bufferIndex) as [k Hk]; [lia|].
    specialize (Hval _ _ Hb Hk).
    destruct (computeVerticesIndexArray_first positions tol k Hval)
      as (c & Hc & Hle & _).
    split; [by exists k|]. exists c. rewrite Hk; simpl. split; [done|lia].
  - destruct (computeVerticesIndexArray_first positions tol bufferIndex Hb)
      as (c & Hc & Hle & _).
    split; [done|]. exists c. split; [done|lia].
Qed.

Section Reads.
Variable positions : BufferAttribute.
Variable indexVertexArray : list nat.
Variable indexBuffer : option IndexAttribute.

(** A corner whose reads are inside their arrays, read by read. *)
Lemma readsInBounds_cornerReads bufferIndex a :
  readsInBounds positions indexVertexArray indexBuffer bufferIndex →
  a ∈ cornerReads positions indexVertexArray indexBuffer bufferIndex →
  inBounds a.
Proof.
  unfold readsInBounds, cornerReads, getVertexIndexReads, fromBufferAttributeReads.
  intros [Hidx (i1 & -> & Hpos)]. revert a. apply Forall_forall, Forall_app. split.
  - destruct indexBuffer as [ib|].
    + destruct Hidx as (k & Hk & Hlt). rewrite Hk.
      repeat constructor; simpl; [by eapply lookup_lt_Some|done].
    + by repeat constructor.
  - simpl. repeat constructor; simpl; lia.
Qed.

(** A corner at or beyond the number of corners is read outside an array. *)
Lemma getVertexIndexReads_outside bufferIndex :
  length indexVertexArray = count positions →
  (∀ ib, indexBuffer = Some ib → length (index_array ib) = index_count ib) →
  cornerCount positions indexBuffer ≤ bufferIndex →
  ∃ a, a ∈ getVertexIndexReads indexVertexArray indexBuffer bufferIndex
       ∧ ¬ inBounds a.
Proof.
  intros Hlen Hib Hge. unfold getVertexIndexReads, cornerCount in *.
  destruct indexBuffer as [ib|].
  - eexists. split; [apply list_elem_of_here|]. simpl. rewrite (Hib ib eq_refl). lia.
  - eexists. split; [apply list_elem_of_here|]. simpl. lia.
Qed.

Lemma resolveVertex_reads i1 st st' v :
  resolveVertex positions i1 st = (st', v) →
  reads st' = reads st
  ∨ reads st' = reads st ++ fromBufferAttributeReads positions i1.
Proof.
  unfold resolveVertex.
  destruct (vertexMap st !! i1); intros [= <- <-]; [by left|by right].
Qed.

(** The reads of a side are those of its two corners; the reads of
    [getVertexIndex] are made whether the side throws or not. *)
Lemma resolveSide_reads faceIndex i st st' o :
  resolveSide positions indexVertexArray indexBuffer faceIndex i st = (st', o) →
  (∀ a, a ∈ reads st' →
     a ∈ reads st
     ∨ a ∈ cornerReads positions indexVertexArray indexBuffer (faceIndex * 3 + i)
     ∨ a ∈ cornerReads positions indexVertexArray indexBuffer
             (faceIndex * 3 + (i + 1) mod 3))
  ∧ (∀ a, a ∈ reads st
          ∨ a ∈ getVertexIndexReads indexVertexArray indexBuffer (faceIndex * 3 + i)
          ∨ a ∈ getVertexIndexReads indexVertexArray indexBuffer
                  (faceIndex * 3 + (i + 1) mod 3) →
          a ∈ reads st').
Proof.
  unfold resolveSide, sideIndices, cornerReads.
  destruct (resolveVertex positions _ (logReads _ st)) as [st1 v1] eqn:H1.
  destruct (resolveVertex positions _ (logReads _ st1)) as [st2 v2] eqn:H2.
  intros H3.
  destruct (resolveEdge_frame _ _ _ _ _ _ _ H3) as (_ & _ & _ & _ & ->).
  apply resolveVertex_reads in H1, H2. simpl in H1, H2.
  split; intros a; destruct H2 as [-> | ->], H1 as [-> | ->];
    rewrite !elem_of_app; tauto.
Qed.

Lemma resolveSidesFrom_reads faceIndex sides st loopHalfedges st' o :
  resolveSidesFrom positions indexVertexArray indexBuffer faceIndex sides st
    loopHalfedges = (st', o) →
  ∀ a, a ∈ reads st' →
    a ∈ reads st
    ∨ ∃ i, i ∈ sides
           ∧ (a ∈ cornerReads positions indexVertexArray indexBuffer
                    (faceIndex * 3 + i)
              ∨ a ∈ cornerReads positions indexVertexArray indexBuffer
                      (faceIndex * 3 + (i + 1) mod 3)).
Proof.
  revert st loopHalfedges.
  induction sides as [|i sides IH]; intros st loopHalfedges; simpl.
  { intros [= <- <-] a Ha. by left. }
  destruct (resolveSide _ _ _ faceIndex i st) as [st1 [e|h1]] eqn:H1.
  - intros [= <- <-] a Ha.
    destruct (proj1 (resolveSide_reads _ _ _ _ _ H1) a Ha) as [?|?]; [by left|].
    right. exists i. split; [apply list_elem_of_here|done].
  - intros Hrest a Ha.
    destruct (IH _ _ Hrest a Ha) as [Ha1 | (j & Hj & Hc)].
    + destruct (proj1 (resolveSide_reads _ _ _ _ _ H1) a Ha1) as [?|?]; [by left|].
      right. exists i. split; [apply list_elem_of_here|done].
    + right. exists j. split; [by apply list_elem_of_further|done].
Qed.

Lemma buildFace_reads st st' faceIndex o :
  buildFace positions indexVertexArray indexBuffer st faceIndex = (st', o) →
  ∀ a, a ∈ reads st' →
    a ∈ reads st
    ∨ ∃ j, j < 3
           ∧ a ∈ cornerReads positions indexVertexArray indexBuffer
                   (faceIndex * 3 + j).
Proof.
  unfold buildFace, resolveSides.
  destruct (resolveSidesFrom _ _ _ faceIndex _ st []) as [st1 r] eqn:H1.
  intros Hface a Ha.
  assert (reads st' = reads st1) as Hr.
  { destruct r as [e|l]; [by injection Hface as <- _|].
    destruct (addFace (store st1) l) as [e|[ds f]]; by injection Hface as <- _. }
  rewrite Hr in Ha.
  destruct (resolveSidesFrom_reads _ _ _ _ _ _ H1 a Ha) as [?|(i & Hi & Hc)];
    [by left|right].
  pose proof (Nat.mod_upper_bound (i + 1) 3 ltac:(lia)).
  assert (i < 3) by (set_unfold; lia).
  destruct Hc; eauto.
Qed.

Lemma faceLoop_reads faceIndices st st' o :
  faceLoop positions indexVertexArray indexBuffer faceIndices st = (st', o) →
  ∀ a, a ∈ reads st' →
    a ∈ reads st
    ∨ ∃ faceIndex j,
        faceIndex ∈ faceIndices ∧ j < 3
        ∧ a ∈ cornerReads positions indexVertexArray indexBuffer
                (faceIndex * 3 + j).
Proof.
  revert st. induction faceIndices as [|f rest IH]; intros st; simpl.
  { intros [= <- <-] a Ha. by left. }
  destruct (buildFace _ _ _ st f) as [st1 [e|]] eqn:Hface.
  - intros [= <- <-] a Ha.
    destruct (buildFace_reads _ _ _ _ Hface a Ha) as [?|(j & Hj & Hc)]; [by left|].
    right. exists f, j. split; [apply list_elem_of_here|done].
  - intros Hrest a Ha.
    destruct (IH _ Hrest a Ha) as [Ha1 | (g & j & Hg & Hj & Hc)].
    + destruct (buildFace_reads _ _ _ _ Hface a Ha1) as [?|(j & Hj & Hc)];
        [by left|].
      right. exists f, j. split; [apply list_elem_of_here|done].
    + right. exists g, j. split; [by apply list_elem_of_further|done].
Qed.

(** The step of a face reads its first two corners, and the third one too
    unless it throws. *)
Lemma buildFace_corners st st' faceIndex o :
  buildFace positions indexVertexArray indexBuffer st faceIndex = (st', o) →
  (∀ a, a ∈ getVertexIndexReads indexVertexArray indexBuffer (faceIndex * 3 + 1) →
        a ∈ reads st')
  ∧ ((∀ a, a ∈ getVertexIndexReads indexVertexArray indexBuffer (faceIndex * 3 + 2) →
           a ∈ reads st')
     ∨ is_Some o).
Proof.
  unfold buildFace, resolveSides. simpl.
  destruct (resolveSide _ _ _ faceIndex 0 st) as [st1 [e|h0]] eqn:H0.
  - intros [= <- <-]. split; [|by right].
    intros a Ha. apply (proj2 (resolveSide_reads _ _ _ _ _ H0)). auto.
  - destruct (resolveSide _ _ _ faceIndex 1 st1) as [st2 r1] eqn:H1.
    assert ((∀ a, a ∈ reads st2 → a ∈ reads st') →
            (∀ a, a ∈ getVertexIndexReads indexVertexArray indexBuffer
                        (faceIndex * 3 + 1) → a ∈ reads st')
            ∧ ((∀ a, a ∈ getVertexIndexReads indexVertexArray indexBuffer
                           (faceIndex * 3 + 2) → a ∈ reads st')
               ∨ is_Some o)) as Hgoal.
    { intros Hsub. split; [|left]; intros a Ha; apply Hsub;
        apply (proj2 (resolveSide_reads _ _ _ _ _ H1)); auto. }
    destruct r1 as [e|h1]; [intros [= <- <-]; by apply Hgoal|].
    destruct (resolveSide _ _ _ faceIndex 2 st2) as [st3 r2] eqn:H2.
    assert (∀ a, a ∈ reads st2 → a ∈ reads st3) as H23
      by (intros a Ha; apply (proj2 (resolveSide_reads _ _ _ _ _ H2)); auto).
    destruct r2 as [e|h2]; [intros [= <- <-]; by apply Hgoal|].
    destruct (addFace (store st3) _) as [e|[ds f]]; intros [= <- <-];
      by apply Hgoal.
Qed.
End Reads.

(** C9, as stated, fails on [trianglePoints] with the index buffer
    [strayIndex]: the index count [3] is a multiple of 3, and the build
    reads entry [7] of the canonical-index array, which has three entries. *)
Lemma stray_index_reads_out_of_bounds :
  index_count strayIndex mod 3 = 0
  ∧ (buildFromGeometry (newHalfedgeDS 1) strayIndexGeometry).2 = None
  ∧ Read IndexVertexArray (Some 7) 3
      ∈ buildReads (newHalfedgeDS 1) strayIndexGeometry
  ∧ ¬ inBounds (Read IndexVertexArray (Some 7) 3).
Proof.
  split; [done|]. split; [by vm_compute|]. split; [|simpl; lia].
  assert (∃ l1 l2, buildReads (newHalfedgeDS 1) strayIndexGeometry
                   = l1 ++ Read IndexVertexArray (Some 7) 3 :: l2)
    as (l1 & l2 & ->).
  { eexists (take 13 (buildReads (newHalfedgeDS 1) strayIndexGeometry)), _.
    vm_compute. reflexivity. }
  apply elem_of_app. right. apply list_elem_of_here.
Qed.

Lemma forRange_seq bound : forRange bound = seq 0 (length (forRange bound)).
Proof. unfold forRange. by rewrite length_seq. Qed.

Lemma forRange_length positions indexBuffer :
  length (forRange (nbOfFaces positions indexBuffer)) * 3
    < cornerCount positions indexBuffer + 3
  ∧ cornerCount positions indexBuffer
    ≤ length (forRange (nbOfFaces positions indexBuffer)) * 3.
Proof.
  pose proof (elem_of_forRange_nbOfFaces positions indexBuffer) as Hin.
  rewrite forRange_seq in Hin.
  set (m := length (forRange (nbOfFaces positions indexBuffer))) in *.
  split.
  - destruct m as [|m]; [lia|].
    assert (m * 3 < cornerCount positions indexBuffer); [|lia].
    apply Hin, elem_of_seq. lia.
  - destruct (decide (m * 3 < cornerCount positions indexBuffer)) as [Hlt|]; [|lia].
    apply Hin, elem_of_seq in Hlt. lia.
Qed.

(** C9, amended: when the position buffer holds whole items, the number of
    corners (the index count with an index buffer, the position count
    without) is a multiple of 3, and the index buffer holds at least as many
    entries as its count, all of them less than the position count, every
    read that a build makes in the canonical-index array, the index buffer
    and the position buffer is within bounds.  When the number of corners is
    not a multiple of 3 (and the index buffer, if any, has as many entries
    as its count), the loop takes in one more face; a build that gets to
    this face (the faces before it are built) reads outside an array there,
    unless two corners are left over and the build throws. *)
Theorem build_reads_within_bounds this geometry positions :
  position geometry = Some positions →
  (wellIndexed positions (index geometry) →
   ∀ a, a ∈ buildReads this geometry → inBounds a)
  ∧ (cornerCount positions (index geometry) mod 3 ≠ 0 →
     (∀ ib, index geometry = Some ib → length (index_array ib) = index_count ib) →
     cornerCount positions (index geometry) / 3
       ∈ forRange (nbOfFaces positions (index geometry))
     ∧ (cornerCount positions (index geometry) / 3
          ≤ length (faces (buildFromGeometry this geometry).1) →
        (∃ a, a ∈ buildReads this geometry ∧ ¬ inBounds a)
        ∨ (cornerCount positions (index geometry) mod 3 = 2
           ∧ is_Some (buildFromGeometry this geometry).2))).
Proof.
  intros Hpos. split.
  - intros Hwf a. unfold buildReads, buildRun. rewrite Hpos.
    destruct (faceLoop _ _ _ _ _) as [st o] eqn:Hloop. simpl. intros Ha.
    destruct (faceLoop_reads _ _ _ _ _ _ _ Hloop a Ha)
      as [Hnil | (f & j & Hf & Hj & Hc)].
    { simpl in Hnil. by apply elem_of_nil in Hnil. }
    apply elem_of_forRange_nbOfFaces in Hf.
    assert (f * 3 + 3 ≤ cornerCount positions (index geometry)) as Hall.
    { destruct Hwf as [_ Hm]. destruct (index geometry) as [ib|];
        [destruct Hm as [Hm _]|]; unfold cornerCount in *;
        apply Nat.Div0.div_exact in Hm; lia. }
    eapply readsInBounds_cornerReads; [|exact Hc].
    apply readsInBounds_corner; [done|lia].
  - intros Hmod Hlen.
    pose proof (Nat.div_mod_eq (cornerCount positions (index geometry)) 3) as Hdm.
    pose proof (Nat.mod_upper_bound (cornerCount positions (index geometry)) 3
                  ltac:(lia)) as Hup.
    pose proof (forRange_length positions (index geometry)) as [Hm1 Hm2].
    set (k := cornerCount positions (index geometry) / 3) in *.
    split; [apply elem_of_forRange_nbOfFaces; lia|].
    unfold buildFromGeometry, buildReads, buildRun. rewrite Hpos. simpl.
    rewrite forRange_seq.
    replace (length (forRange (nbOfFaces positions (index geometry))))
      with (k + 1) by lia.
    rewrite seq_app, faceLoop_app. simpl.
    destruct (faceLoop _ _ _ (seq 0 k) _) as [st1 [e|]] eqn:Hpre; simpl.
    { intros Hfaces.
      destruct (faceLoop_kept _ _ _ _ _ _ _ Hpre) as [_ [_ Hlt]].
      rewrite length_seq in Hlt. simpl in Hlt. lia. }
    intros _.
    destruct (buildFace _ _ _ st1 k) as [st2 o2] eqn:Hface.
    destruct (buildFace_corners _ _ _ _ _ _ _ Hface) as [Hc1 Hc2].
    assert ((∃ a, a ∈ reads st2 ∧ ¬ inBounds a)
            ∨ cornerCount positions (index geometry) mod 3 = 2 ∧ is_Some o2)
      as Hgoal; [|by destruct o2].
    destruct (decide (cornerCount positions (index geometry) mod 3 = 1)) as [H1|H1].
    + left.
      destruct (getVertexIndexReads_outside positions
                  (computeVerticesIndexArray positions (tolerance this))
                  (index geometry) (k * 3 + 1)) as (a & Ha & Hout);
        [apply computeVerticesIndexArray_length|done|lia|].
      exists a. split; [by apply Hc1|done].
    + destruct Hc2 as [Hc2|Hsome]; [left|right; split; [lia|done]].
      destruct (getVertexIndexReads_outside positions
                  (computeVerticesIndexArray positions (tolerance this))
                  (index geometry) (k * 3 + 2)) as (a & Ha & Hout);
        [apply computeVerticesIndexArray_length|done|lia|].
      exists a. split; [by apply Hc2|done].
Qed.

Lemma build_reads_within_bounds_witness :
  (∀ a, a ∈ buildReads (newHalfedgeDS 1) doubledTriangle → inBounds a)
  ∧ ((∃ a, a ∈ buildReads (newHalfedgeDS 1) fourPointsGeometry ∧ ¬ inBounds a)
     ∨ (cornerCount fourPoints None mod 3 = 2
        ∧ is_Some (buildFromGeometry (newHalfedgeDS 1) fourPointsGeometry).2)).
Proof.
  split.
  - apply (proj1 (build_reads_within_bounds (newHalfedgeDS 1) doubledTriangle
                    (pointsAttribute
                       [(0, 0, 0); (1, 0, 0); (0, 1, 0);
                        (0, 0, 0); (1, 0, 0); (0, 1, 0)]%Q)
                    eq_refl)).
    split; [vm_compute; lia|reflexivity].
  - apply (proj2 (build_reads_within_bounds (newHalfedgeDS 1) fourPointsGeometry
                    fourPoints eq_refl)).
    + vm_compute. lia.
    + intros ib [=].
    + vm_compute. lia.
Defined.

(** With five points the last face has two corners only; the build gets
    through it, after reading entry [5] of a canonical-index array of five
    entries. *)
Example five_points_read_out_of_bounds :
  (buildFromGeometry (newHalfedgeDS 1) fivePoints).2 = None
  ∧ length (faces (buildFromGeometry (newHalfedgeDS 1) fivePoints).1) = 2
  ∧ buildReads (newHalfedgeDS 1) fivePoints !! 24
    = Some (Read IndexVertexArray (Some 5) 5).
Proof. by vm_compute. Qed.

(** *** The keys of the edge map *)

Lemma allDigits_dashFree s : allDigits s → dashFree s.
Proof.
  induction s as [|a s IH]; simpl; [done|].
  intros [Ha Hs]%andb_prop_elim. apply andb_prop_intro. split; [|by apply IH].
  apply bool_decide_unpack in Ha as [n Hn].
  destruct (Ascii.eqb a "-"%char) eqn:Heq; [|done].
  apply Ascii.eqb_eq in Heq as ->. done.
Qed.

Lemma allDigits_pretty_N_go x s : allDigits s → allDigits (pretty_N_go x s).
Proof.
  revert s. induction (N.lt_wf_0 x) as [x _ IH]; intros s Hs.
  destruct (decide (x = 0)%N) as [->|Hx]; [by rewrite pretty_N_go_0|].
  rewrite pretty_N_go_step by lia.
  apply IH; [apply N.div_lt; lia|].
  simpl. apply andb_prop_intro. split; [|done].
  unfold pretty_N_char. by repeat case_match.
Qed.

Lemma allDigits_pretty_nat (n : nat) : allDigits (pretty n).
Proof.
  unfold pretty, pretty_nat, pretty, pretty_N.
  case_decide; [done|]. by apply allDigits_pretty_N_go.
Qed.

Lemma dashFree_indexString i : dashFree (indexString i).
Proof. destruct i as [n|]; [|done]. apply allDigits_dashFree, allDigits_pretty_nat. Qed.

Lemma indexString_inj i j : indexString i = indexString j → i = j.
Proof.
  destruct i as [n|], j as [k|]; simpl; intros Heq.
  - f_equal. by apply (inj pretty).
  - pose proof (allDigits_pretty_nat n) as H. by rewrite Heq in H.
  - pose proof (allDigits_pretty_nat k) as H. by rewrite <- Heq in H.
  - done.
Qed.

Lemma string_app_nil_l (t : string) : "" +:+ t = t.
Proof. reflexivity. Qed.

Lemma string_app_cons (a : ascii) (s t : string) :
  String a s +:+ t = String a (s +:+ t).
Proof. reflexivity. Qed.

Lemma split_at_dash a b c d :
  dashFree a → dashFree c →
  a +:+ "-" +:+ b = c +:+ "-" +:+ d → a = c ∧ b = d.
Proof.
  revert c. induction a as [|x a IH]; intros [|y c] Ha Hc Heq;
    rewrite ?string_app_cons, ?string_app_nil_l in Heq.
  - by injection Heq as ->.
  - injection Heq as <- _. done.
  - injection Heq as -> _. done.
  - injection Heq as -> Heq.
    simpl in Ha, Hc.
    apply andb_prop_elim in Ha as [_ Ha]. apply andb_prop_elim in Hc as [_ Hc].
    destruct (IH c Ha Hc Heq) as [-> ->]. done.
Qed.

Lemma edgeHash_inj i1 i2 j1 j2 :
  edgeHash i1 i2 = edgeHash j1 j2 → i1 = j1 ∧ i2 = j2.
Proof.
  unfold edgeHash. intros Heq.
  apply split_at_dash in Heq as [H1 H2]; [|apply dashFree_indexString..].
  split; by apply indexString_inj.
Qed.


(** *** Reuse of edges *)

Section Sides.
Variable positions : BufferAttribute.

Lemma resolveVertex_lookup i1 st st' v :
  resolveVertex positions i1 st = (st', v) →
  vertexMap st' !! i1 = Some v
  ∧ ∀ j w, vertexMap st !! j = Some w → vertexMap st' !! j = Some w.
Proof.
  unfold resolveVertex.
  destruct (vertexMap st !! i1) as [v1|] eqn:Hlook; intros [= <- <-]; [done|].
  simpl. split; [apply lookup_insert_eq|].
  intros j w Hj. rewrite lookup_insert_ne; [done|]. intros <-. congruence.
Qed.

End Sides.



(** On the first side of a triangle with three corners apart, the map is
    empty, a pair is made, and the two keys are entered. *)
Example side_edge_reuse_first_side :
  (resolveSide trianglePoints [0; 1; 2] None 0 0 (initialState (newHalfedgeDS 1))).2
    = inr 0
  ∧ halfedgeMap
      (resolveSide trianglePoints [0; 1; 2] None 0 0
         (initialState (newHalfedgeDS 1))).1
    = <[edgeHash (Some 1) (Some 0) := 1]> (<[edgeHash (Some 0) (Some 1) := 0]> ∅).
Proof. split; by vm_compute. Qed.

(** * Properties of the traversal *)

Section Orbits.
Variable next : nat → option nat.

Lemma iterNext_add a b h :
  iterNext next (a + b) h = iterNext next a h ≫= iterNext next b.
Proof.
  revert h. induction a as [|a IH]; intros h; simpl; [done|].
  destruct (next h) as [h'|]; simpl; [apply IH|done].
Qed.

Lemma iterNext_prefix a b h y :
  iterNext next (a + b) h = Some y → ∃ x, iterNext next a h = Some x
                                        ∧ iterNext next b x = Some y.
Proof.
  rewrite iterNext_add. destruct (iterNext next a h) as [x|]; [|done].
  simpl. by exists x.
Qed.

Lemma iterNext_period p q h :
  iterNext next p h = Some h → iterNext next (q * p) h = Some h.
Proof.
  intros Hp. induction q as [|q IH]; simpl; [done|].
  by rewrite iterNext_add, Hp.
Qed.

Lemma iterNext_mod p k h :
  0 < p → iterNext next p h = Some h →
  iterNext next k h = iterNext next (k mod p) h.
Proof.
  intros Hpos Hp.
  rewrite (Nat.div_mod_eq k p) at 1.
  rewrite (Nat.mul_comm p), iterNext_add, (iterNext_period _ _ _ Hp). done.
Qed.

Lemma orbit_refl r : orbit next r r.
Proof. by exists 0. Qed.

Lemma orbit_trans a b c : orbit next a b → orbit next b c → orbit next a c.
Proof.
  intros [i Hi] [j Hj]. exists (i + j). by rewrite iterNext_add, Hi.
Qed.

(** On a closed loop the relation is symmetric. *)
Lemma orbit_sym r h n :
  0 < n → iterNext next n r = Some r → orbit next r h → orbit next h r.
Proof.
  intros Hn Hclosed [k Hk].
  pose proof (iterNext_period n k r Hclosed) as Hper.
  assert (k * n = k + (k * n - k)) as Hsplit by nia.
  rewrite Hsplit, iterNext_add, Hk in Hper. simpl in Hper.
  by exists (k * n - k).
Qed.

(** What a traversal that comes back has yielded. *)
Lemma nextLoopFrom_spec fuel start curr l :
  nextLoopFrom next fuel start curr = Some l →
  0 < length l
  ∧ iterNext next (length l) curr = Some start
  ∧ ∀ j, j < length l → l !! j = iterNext next j curr.
Proof.
  revert curr l. induction fuel as [|fuel IH]; intros curr l; simpl; [done|].
  destruct (next curr) as [nxt|] eqn:Hnext; [|done].
  case_decide as Hstart.
  - intros [= <-]. simpl. rewrite Hnext. simpl. subst nxt.
    split; [lia|]. split; [done|]. intros j Hj.
    by assert (j = 0) as -> by lia.
  - destruct (nextLoopFrom next fuel start nxt) as [l'|] eqn:Hrec; [|done].
    simpl. intros [= <-]. destruct (IH _ _ Hrec) as (Hlen & Hback & Hnth).
    simpl. rewrite Hnext. simpl.
    split; [lia|]. split; [done|]. intros [|j] Hj; simpl; [done|].
    rewrite Hnext. simpl. apply Hnth. lia.
Qed.

(** A traversal comes back when the loop is closed and the fuel is at
    least its length. *)
Lemma nextLoopFrom_terminates fuel start curr m :
  0 < m → m ≤ fuel → iterNext next m curr = Some start →
  ∃ l, nextLoopFrom next fuel start curr = Some l.
Proof.
  revert curr m. induction fuel as [|fuel IH]; intros curr m Hpos Hle; [lia|].
  destruct m as [|m]; [lia|]. simpl.
  destruct (next curr) as [nxt|]; [|done]. simpl. intros Hm.
  case_decide as Hstart; [by eexists|].
  destruct m as [|m]; [simpl in Hm; congruence|].
  destruct (IH nxt (S m)) as [l Hl]; [lia|lia|done|].
  rewrite Hl. by eexists.
Qed.

(** The members of a traversal are the halfedges reached from its start. *)
Lemma nextLoopFrom_orbit fuel r l h :
  nextLoopFrom next fuel r r = Some l → h ∈ l ↔ orbit next r h.
Proof.
  intros Hl. destruct (nextLoopFrom_spec _ _ _ _ Hl) as (Hlen & Hback & Hnth).
  split.
  - intros [j Hj]%list_elem_of_lookup. exists j.
    rewrite <- Hnth; [done|]. by eapply lookup_lt_Some.
  - intros [k Hk]. rewrite (iterNext_mod (length l)) in Hk by done.
    apply list_elem_of_lookup. exists (k mod length l).
    rewrite Hnth; [done|]. apply Nat.mod_upper_bound. lia.
Qed.

(** *** A closed loop is no longer than the store *)

Variable size : nat.
Hypothesis next_in_store : ∀ h y, next h = Some y → h < size.

Lemma least_period h n :
  0 < n → iterNext next n h = Some h →
  ∃ p, (0 < p ∧ iterNext next p h = Some h)
       ∧ ∀ q, 0 < q ∧ iterNext next q h = Some h → p ≤ q.
Proof.
  intros Hn Hclosed.
  destruct (dec_inh_nat_subset_has_unique_least_element
              (λ q, 0 < q ∧ iterNext next q h = Some h)) as (p & [Hp Hmin] & _).
  - intros q. destruct (decide (0 < q ∧ iterNext next q h = Some h)); auto.
  - by exists n.
  - by exists p.
Qed.

Lemma period_le_size h n :
  0 < n → iterNext next n h = Some h →
  ∃ p, 0 < p ∧ p ≤ size ∧ iterNext next p h = Some h.
Proof.
  intros Hn Hclosed.
  destruct (least_period h n Hn Hclosed) as (p & [Hpos Hp] & Hmin).
  exists p. split; [done|]. split; [|done].
  set (visit := λ j, default 0 (iterNext next j h)).
  assert (∀ j, j < p → iterNext next j h = Some (visit j)
                       ∧ iterNext next (p - j) (visit j) = Some h) as Hvisit.
  { intros j Hj. unfold visit.
    replace p with (j + (p - j)) in Hp by lia.
    apply iterNext_prefix in Hp as (x & Hx & Hback). by rewrite Hx. }
  assert (NoDup (visit <$> seq 0 p)) as Hnodup.
  { apply NoDup_fmap_2_strong; [|apply NoDup_seq].
    intros i j [_ Hi]%elem_of_seq [_ Hj]%elem_of_seq Heq. simpl in Hi, Hj.
    destruct (Hvisit i Hi) as [Hvi Hbi], (Hvisit j Hj) as [Hvj Hbj].
    destruct (Nat.lt_trichotomy i j) as [Hlt | [-> | Hlt]]; [|done|].
    - assert (p ≤ i + (p - j)); [|lia].
      apply Hmin. split; [lia|]. by rewrite iterNext_add, Hvi, Heq.
    - assert (p ≤ j + (p - i)); [|lia].
      apply Hmin. split; [lia|]. by rewrite iterNext_add, Hvj, <- Heq. }
  assert (∀ y, y ∈ visit <$> seq 0 p → y ∈ seq 0 size) as Hsub.
  { intros y (j & -> & [_ Hj]%elem_of_seq)%list_elem_of_fmap. simpl in Hj.
    destruct (Hvisit j Hj) as [_ Hback].
    apply elem_of_seq. split; [lia|]. simpl.
    destruct (p - j) as [|d] eqn:Hd; [lia|]. simpl in Hback.
    destruct (next (visit j)) as [y|] eqn:Hy; [|done].
    by eapply next_in_store. }
  pose proof (submseteq_length _ _ (NoDup_submseteq _ _ Hnodup Hsub)) as Hlen.
  by rewrite length_fmap, !length_seq in Hlen.
Qed.
End Orbits.

Section Loops.
Variable this : HalfedgeDS.
Hypothesis closed : loopsClosed this.

Lemma nextOf_in_store h y : nextOf this h = Some y → h < length (halfedges this).
Proof.
  unfold nextOf. destruct (halfedges this !! h) as [r|] eqn:Hr; [|done].
  intros _. by eapply lookup_lt_Some.
Qed.

(** The traversal from a halfedge of the store comes back. *)
Lemma nextLoop_total r :
  r < length (halfedges this) → ∃ l, nextLoop this r = Some l.
Proof.
  intros Hr. destruct (closed r Hr) as (n & Hn & Hclosed).
  destruct (period_le_size _ _ nextOf_in_store r n Hn Hclosed)
    as (p & Hpos & Hle & Hp).
  by eapply nextLoopFrom_terminates.
Qed.

Lemma loopsStep_inv n st :
  n < length (halfedges this) →
  loopsInv this n st → loopsInv this (S n) (loopsStep this st n).
Proof.
  intros Hn (reps & handled & -> & Hhandled & Hseen & Hnodup & Hlt & Hsep).
  unfold loopsStep; simpl. case_decide as Hin.
  - exists reps, handled. split; [done|]. split; [done|].
    split; [|split; [done|split; [|done]]].
    + intros h Hh. destruct (decide (h = n)) as [->|]; [done|].
      apply Hseen. lia.
    + intros r Hr. specialize (Hlt r Hr). lia.
  - destruct (nextLoop_total n Hn) as [l Hl]. rewrite Hl; simpl.
    assert (∀ h, h ∈ l ↔ orbit (nextOf this) n h) as Hl'
      by (intros h; by eapply nextLoopFrom_orbit).
    assert (∀ r, r ∈ reps → r ∈ handled) as Hreps.
    { intros r Hr. apply Hhandled. exists r. split; [done|apply orbit_refl]. }
    exists (reps ++ [n]), (handled ∪ list_to_set l).
    split; [done|]. split; [|split; [|split; [|split]]].
    + intros h. rewrite elem_of_union, elem_of_list_to_set, Hhandled, Hl'.
      split.
      * intros [(r & Hr & Ho) | Ho].
        -- exists r. split; [|done]. apply elem_of_app. by left.
        -- exists n. split; [|done]. apply elem_of_app. right. by apply list_elem_of_singleton.
      * intros (r & [Hr | ->%list_elem_of_singleton]%elem_of_app & Ho).
        -- left. by exists r.
        -- by right.
    + intros h Hh. rewrite elem_of_union, elem_of_list_to_set, Hl'.
      destruct (decide (h = n)) as [->|]; [right; apply orbit_refl|].
      left. apply Hseen. lia.
    + apply NoDup_app. split; [done|]. split; [|apply NoDup_singleton].
      intros r Hr ->%list_elem_of_singleton. by apply Hin, Hreps.
    + intros r [Hr | ->%list_elem_of_singleton]%elem_of_app; [|lia].
      specialize (Hlt r Hr). lia.
    + destruct (closed n Hn) as (p & Hp & Hclosed).
      intros r1 r2 [H1 | ->%list_elem_of_singleton]%elem_of_app
                   [H2 | ->%list_elem_of_singleton]%elem_of_app Ho.
      * by apply Hsep.
      * destruct Hin. apply Hhandled. by exists r1.
      * destruct Hin. apply Hhandled. exists r2. split; [done|].
        by eapply orbit_sym.
      * done.
Qed.

Lemma loops_fold_inv n :
  n ≤ length (halfedges this) →
  loopsInv this n (foldl (loopsStep this) (Some ([], ∅)) (seq 0 n)).
Proof.
  induction n as [|n IH]; intros Hn.
  - exists [], ∅. simpl. split; [done|]. split; [|split; [|split; [|split]]].
    + intros h. split; [set_solver|]. by intros (r & Hr%elem_of_nil & _).
    + intros h Hh. lia.
    + apply NoDup_nil_2.
    + by intros r Hr%elem_of_nil.
    + by intros r1 r2 Hr%elem_of_nil.
  - rewrite seq_S, foldl_app. simpl. apply loopsStep_inv; [lia|]. apply IH. lia.
Qed.
End Loops.

(** C3: in a store whose loops are closed, [loops()] returns
    representatives, each once, such that every halfedge of the store is in
    the next-loop of exactly one of them. *)
Theorem loops_partition (this : HalfedgeDS) :
  loopsClosed this →
  ∃ reps,
    loops this = Some reps
    ∧ NoDup reps
    ∧ (∀ r, r ∈ reps → r < length (halfedges this))
    ∧ ∀ h, h < length (halfedges this) →
        ∃ r, (r ∈ reps ∧ inNextLoop this r h)
             ∧ ∀ r', r' ∈ reps ∧ inNextLoop this r' h → r' = r.
Proof.
  intros Hclosed.
  destruct (loops_fold_inv this Hclosed (length (halfedges this)) (le_n _))
    as (reps & handled & Hfold & Hhandled & Hseen & Hnodup & Hlt & Hsep).
  exists reps. unfold loops. rewrite Hfold.
  split; [done|]. split; [done|]. split; [done|].
  intros h Hh.
  destruct (proj1 (Hhandled h) (Hseen h Hh)) as (r & Hr & Ho).
  destruct (nextLoop_total this Hclosed r (Hlt r Hr)) as [l Hl].
  exists r. split.
  - split; [done|]. exists l. split; [done|]. by eapply nextLoopFrom_orbit.
  - intros r' [Hr' (l' & Hl' & Hin')].
    apply (nextLoopFrom_orbit _ _ _ _ _ Hl') in Hin'.
    destruct (Hclosed r (Hlt r Hr)) as (p & Hp & Hback).
    apply Hsep; [done..|].
    eapply orbit_trans; [exact Hin'|]. by eapply orbit_sym.
Qed.

Lemma loops_partition_witness :
  ∃ reps,
    loops twoLoops = Some reps
    ∧ NoDup reps
    ∧ (∀ r, r ∈ reps → r < length (halfedges twoLoops))
    ∧ ∀ h, h < length (halfedges twoLoops) →
        ∃ r, (r ∈ reps ∧ inNextLoop twoLoops r h)
             ∧ ∀ r', r' ∈ reps ∧ inNextLoop twoLoops r' h → r' = r.
Proof.
  apply (loops_partition twoLoops).
  intros h Hh. simpl in Hh.
  assert (h = 0 ∨ h = 1 ∨ h = 2 ∨ h = 3 ∨ h = 4) as [->|[->|[->|[->| ->]]]] by lia.
  1-3: by (exists 3; split; [lia|]).
  all: by (exists 2; split; [lia|]).
Defined.

Example loops_twoLoops : loops twoLoops = Some [0; 3].
Proof. by vm_compute. Qed.

(** * Further properties of the vertex merger *)

Lemma computeVerticesIndexArray_lookup_ge positions tol i :
  count positions ≤ i → computeVerticesIndexArray positions tol !! i = None.
Proof.
  intros Hi. apply lookup_ge_None. by rewrite computeVerticesIndexArray_length.
Qed.

(** X1: two positions get the same canonical index exactly when their keys
    are the same string. *)
Theorem merged_iff_same_key positions tol i j :
  i < count positions → j < count positions →
  computeVerticesIndexArray positions tol !! i
    = computeVerticesIndexArray positions tol !! j
  ↔ hashOf positions (shiftMultiplierQ tol) i
    = hashOf positions (shiftMultiplierQ tol) j.
Proof.
  intros Hi Hj.
  destruct (computeVerticesIndexArray_first positions tol i Hi)
    as (c & Hc & _ & Hkc & Hminc).
  destruct (computeVerticesIndexArray_first positions tol j Hj)
    as (d & Hd & _ & Hkd & Hmind).
  rewrite Hc, Hd. split.
  - intros [= ->]. by rewrite <- Hkc, <- Hkd.
  - intros Heq. f_equal.
    eapply (isFirst_unique positions (shiftMultiplierQ tol)); split; eauto.
    + by rewrite Heq.
    + intros j' Hj'. rewrite Heq. by apply Hmind.
Qed.

Lemma merged_iff_same_key_witness :
  computeVerticesIndexArray collidingPoints 1 !! 0
    = computeVerticesIndexArray collidingPoints 1 !! 1
  ↔ hashOf collidingPoints (shiftMultiplierQ 1) 0
    = hashOf collidingPoints (shiftMultiplierQ 1) 1.
Proof. apply (merged_iff_same_key collidingPoints 1 0 1); simpl; lia. Defined.

(** A position is its own representative exactly when no earlier position
    has its key. *)
Lemma own_representative_iff_first positions tol i :
  i < count positions →
  computeVerticesIndexArray positions tol !! i = Some i
  ↔ ∀ j, j < i → hashOf positions (shiftMultiplierQ tol) j
                  ≠ hashOf positions (shiftMultiplierQ tol) i.
Proof.
  intros Hi.
  destruct (computeVerticesIndexArray_first positions tol i Hi)
    as (c & Hc & Hle & Hkc & Hminc).
  rewrite Hc. split.
  - by intros [= ->].
  - intros Hfirst. f_equal. destruct (decide (c = i)) as [|Hne]; [done|].
    destruct (Hfirst c); [lia|done].
Qed.

(** X2: the result is the identity exactly when the keys of the positions
    are pairwise different. *)
Theorem identity_iff_keys_distinct positions tol :
  computeVerticesIndexArray positions tol = seq 0 (count positions)
  ↔ ∀ i j, i < j → j < count positions →
      hashOf positions (shiftMultiplierQ tol) i
        ≠ hashOf positions (shiftMultiplierQ tol) j.
Proof.
  split.
  - intros Hid i j Hij Hj.
    apply (own_representative_iff_first positions tol j Hj); [|done].
    rewrite Hid. by apply lookup_seq_lt.
  - intros Hdistinct. apply list_eq. intros i.
    destruct (decide (i < count positions)) as [Hi|Hi].
    + rewrite lookup_seq_lt by done.
      apply own_representative_iff_first; [done|].
      intros j Hj. by apply Hdistinct.
    + rewrite lookup_seq_ge by lia.
      apply computeVerticesIndexArray_lookup_ge. lia.
Qed.

(** X3: positions of one grid cell (equal rounded components on the three
    axes) get the same canonical index. *)
Theorem same_cell_merged positions tol i j :
  i < count positions → j < count positions →
  quantized positions (shiftMultiplierQ tol) i
    = quantized positions (shiftMultiplierQ tol) j →
  computeVerticesIndexArray positions tol !! i
    = computeVerticesIndexArray positions tol !! j.
Proof.
  intros Hi Hj Hcell%hashOf_quantized.
  destruct (computeVerticesIndexArray_first positions tol i Hi)
    as (c & -> & _ & Hc).
  destruct (computeVerticesIndexArray_first positions tol j Hj)
    as (d & -> & _ & Hd).
  rewrite Hcell in Hc. f_equal. by eapply isFirst_unique.
Qed.

Lemma same_cell_merged_witness :
  computeVerticesIndexArray
    (pointsAttribute [(3 # 10, 0, 0); (4 # 10, 0, 0)]%Q) (1 # 2) !! 0
  = computeVerticesIndexArray
      (pointsAttribute [(3 # 10, 0, 0); (4 # 10, 0, 0)]%Q) (1 # 2) !! 1.
Proof.
  apply (same_cell_merged
           (pointsAttribute [(3 # 10, 0, 0); (4 # 10, 0, 0)]%Q) (1 # 2) 0 1).
  - simpl. lia.
  - simpl. lia.
  - vm_compute. reflexivity.
Defined.

(** *** Appending positions *)

Lemma roundedComponent_ext p1 p2 m k :
  array p2 !! k = array p1 !! k →
  roundedComponent p2 m k = roundedComponent p1 m k.
Proof. unfold roundedComponent. by intros ->. Qed.

Lemma mergeLoop_ext p1 p2 m n :
  (∀ k, k < n * 3 → array p2 !! k = array p1 !! k) →
  mergeLoop p2 m n = mergeLoop p1 m n.
Proof.
  induction n as [|n IH]; intros Hsame; [done|].
  rewrite !mergeLoop_S, IH by (intros k Hk; apply Hsame; lia).
  unfold mergeStep.
  assert (hashOf p2 m n = hashOf p1 m n) as ->; [|done].
  rewrite !hashOf_unfold.
  by rewrite !(roundedComponent_ext p1 p2) by (apply Hsame; lia).
Qed.

Lemma mergeLoop_take positions m n k :
  take n (mergeLoop positions m (n + k)).2 = (mergeLoop positions m n).2.
Proof.
  induction k as [|k IH].
  - rewrite Nat.add_0_r. apply take_ge.
    by rewrite (proj1 (mergeLoop_spec positions m n)).
  - rewrite Nat.add_succ_r, mergeLoop_S.
    pose proof (proj1 (mergeLoop_spec positions m (n + k))) as Hlen.
    simpl in Hlen. unfold mergeStep.
    destruct (_ !! _); simpl; rewrite take_app_le by lia; exact IH.
Qed.

(** X4: positions appended to the buffer do not change the canonical
    indices of the positions before them. *)
Theorem appended_positions_keep_indices p1 p2 tol :
  count p1 ≤ count p2 →
  (∀ k, k < count p1 * 3 → array p2 !! k = array p1 !! k) →
  take (count p1) (computeVerticesIndexArray p2 tol)
  = computeVerticesIndexArray p1 tol.
Proof.
  intros Hle Hsame. unfold computeVerticesIndexArray.
  replace (count p2) with (count p1 + (count p2 - count p1)) by lia.
  rewrite mergeLoop_take. by rewrite (mergeLoop_ext p1 p2).
Qed.

Lemma appended_positions_keep_indices_witness :
  take (count trianglePoints) (computeVerticesIndexArray fourPoints 1)
  = computeVerticesIndexArray trianglePoints 1.
Proof.
  apply (appended_positions_keep_indices trianglePoints fourPoints 1).
  - simpl. lia.
  - intros k Hk. simpl in Hk.
    do 9 (destruct k as [|k]; [reflexivity|]). lia.
Defined.

(** * Further properties of the traversal *)

Section Traversals.
Variable next : nat → option nat.

(** A traversal does not pass its start before it ends. *)
Lemma nextLoopFrom_no_early_return fuel start curr l :
  nextLoopFrom next fuel start curr = Some l →
  ∀ j, 0 < j → j < length l → iterNext next j curr ≠ Some start.
Proof.
  revert curr l. induction fuel as [|fuel IH]; intros curr l; simpl; [done|].
  destruct (next curr) as [nxt|] eqn:Hnext; [|done].
  case_decide as Hstart.
  - intros [= <-] j Hj Hlen. simpl in Hlen. lia.
  - destruct (nextLoopFrom next fuel start nxt) as [l'|] eqn:Hrec; [|done].
    simpl. intros [= <-] [|j] Hj Hlen; [lia|]. simpl. rewrite Hnext. simpl.
    destruct j as [|j]; [simpl; congruence|].
    apply (IH _ _ Hrec); simpl in *; lia.
Qed.

(** A traversal yields no halfedge twice. *)
Lemma nextLoopFrom_NoDup fuel r l :
  nextLoopFrom next fuel r r = Some l → NoDup l.
Proof.
  intros Hl. destruct (nextLoopFrom_spec _ _ _ _ _ Hl) as (Hlen & Hback & Hnth).
  pose proof (nextLoopFrom_no_early_return _ _ _ _ Hl) as Hearly.
  assert (∀ i j x, i < j → l !! i = Some x → l !! j = Some x → False) as Hlt.
  { intros i j x Hij Hi Hj.
    pose proof (lookup_lt_Some _ _ _ Hi) as Hi'.
    pose proof (lookup_lt_Some _ _ _ Hj) as Hj'.
    rewrite Hnth in Hi, Hj by done.
    replace (length l) with (j + (length l - j)) in Hback by lia.
    apply iterNext_prefix in Hback as (x' & Hx' & Hrest).
    assert (x' = x) as -> by congruence.
    apply (Hearly (i + (length l - j))); [lia..|].
    by rewrite iterNext_add, Hi. }
  apply NoDup_alt. intros i j x Hi Hj.
  destruct (Nat.lt_trichotomy i j) as [Hij | [-> | Hij]]; [|done|].
  - by destruct (Hlt i j x).
  - by destruct (Hlt j i x).
Qed.

(** A halfedge that a traversal yields lies on a closed loop, and has a
    [next]. *)
Lemma nextLoopFrom_member fuel r l h :
  nextLoopFrom next fuel r r = Some l → h ∈ l →
  is_Some (next h) ∧ iterNext next (length l) h = Some h.
Proof.
  intros Hl [j Hj]%list_elem_of_lookup.
  destruct (nextLoopFrom_spec _ _ _ _ _ Hl) as (Hlen & Hback & Hnth).
  pose proof (lookup_lt_Some _ _ _ Hj) as Hj'.
  rewrite Hnth in Hj by done.
  split.
  - replace (length l) with (j + S (length l - S j)) in Hback by lia.
    apply iterNext_prefix in Hback as (x' & Hx' & Hrest).
    assert (x' = h) as -> by congruence. simpl in Hrest.
    by destruct (next h).
  - pose proof (iterNext_add next j (length l) r) as H1.
    pose proof (iterNext_add next (length l) j r) as H2.
    rewrite Hj in H1. rewrite Hback in H2. simpl in H1, H2.
    rewrite Nat.add_comm in H2. congruence.
Qed.
End Traversals.

Section LoopsReturn.
Variable this : HalfedgeDS.

Lemma loopsStep_Some st n reps' handled' :
  loopsStep this st n = Some (reps', handled') →
  ∃ reps handled,
    st = Some (reps, handled)
    ∧ ((n ∈ handled ∧ reps' = reps ∧ handled' = handled)
       ∨ ((n ∉ handled) ∧ ∃ l, nextLoop this n = Some l
                             ∧ reps' = reps ++ [n]
                             ∧ handled' = handled ∪ list_to_set l)).
Proof.
  unfold loopsStep. destruct st as [[reps handled]|]; [|done]. simpl.
  intros Hstep. exists reps, handled. split; [done|].
  case_decide as Hin.
  - left. by injection Hstep as <- <-.
  - right. split; [done|].
    destruct (nextLoop this n) as [l|]; [|done]. simpl in Hstep.
    exists l. by injection Hstep as <- <-.
Qed.

(** When the loop of [loops] gets through, every halfedge it handled was
    yielded by a traversal that came back. *)
Lemma loops_fold_Some n reps handled :
  foldl (loopsStep this) (Some ([], ∅)) (seq 0 n) = Some (reps, handled) →
  (∀ h, h < n → h ∈ handled)
  ∧ ∀ h, h ∈ handled → ∃ r l, nextLoop this r = Some l ∧ h ∈ l.
Proof.
  revert reps handled. induction n as [|n IH]; intros reps handled.
  - simpl. intros [= <- <-]. split; [intros; lia|set_solver].
  - rewrite seq_S, foldl_app. simpl.
    intros (reps0 & handled0 & Hprev & Hcase)%loopsStep_Some.
    destruct (IH _ _ Hprev) as [Hseen Hfrom].
    destruct Hcase as [(Hin & -> & ->) | (Hin & l & Hl & -> & ->)].
    + split; [|done]. intros h Hh.
      destruct (decide (h = n)) as [->|]; [done|]. apply Hseen. lia.
    + split.
      * intros h Hh. apply elem_of_union.
        destruct (decide (h = n)) as [->|]; [|left; apply Hseen; lia].
        right. apply elem_of_list_to_set.
        unfold nextLoop in Hl.
        destruct (nextLoopFrom_spec _ _ _ _ _ Hl) as (Hlen & _ & Hnth).
        apply list_elem_of_lookup. exists 0. by rewrite Hnth.
      * intros h [Hh | Hh%elem_of_list_to_set]%elem_of_union; [by apply Hfrom|].
        by exists n, l.
Qed.

(** X6: [loops()] returns exactly when the loops of the store are closed. *)
Theorem loops_returns_iff_closed :
  is_Some (loops this) ↔ loopsClosed this.
Proof.
  split.
  - unfold loops. intros [reps Hreps] h Hh.
    destruct (foldl _ _ _) as [[reps' handled]|] eqn:Hfold; [|done].
    destruct (loops_fold_Some _ _ _ Hfold) as [Hseen Hfrom].
    destruct (Hfrom h (Hseen h Hh)) as (r & l & Hl & Hin).
    unfold nextLoop in Hl.
    destruct (nextLoopFrom_spec _ _ _ _ _ Hl) as (Hlen & _ & _).
    destruct (nextLoopFrom_member _ _ _ _ _ Hl Hin) as [_ Hback].
    by exists (length l).
  - intros Hclosed.
    destruct (loops_fold_inv this Hclosed (length (halfedges this)) (le_n _))
      as (reps & handled & Hfold & _).
    unfold loops. rewrite Hfold. by eexists.
Qed.
End LoopsReturn.

Section LoopsOrder.
Variable this : HalfedgeDS.
Hypothesis closed : loopsClosed this.

Lemma loopsStep_inv_more n st :
  n < length (halfedges this) →
  loopsInv this n st → loopsInvMore this st →
  loopsInvMore this (loopsStep this st n).
Proof.
  intros Hn (reps & handled & -> & Hhandled & Hseen & Hnodup & Hlt & Hsep) Hmore.
  destruct (Hmore reps handled eq_refl) as (Hsorted & Hleast & ls & Hls & Hnd & Hmem).
  intros reps' handled' (reps0 & handled0 & [= <- <-] & Hcase)%loopsStep_Some.
  destruct Hcase as [(Hin & -> & ->) | (Hin & l & Hl & -> & ->)].
  { split; [done|]. split; [done|]. by exists ls. }
  destruct (closed n Hn) as (p & Hp & Hback).
  assert (∀ h, h ∈ l ↔ orbit (nextOf this) n h) as Hl'
    by (intros h; by eapply nextLoopFrom_orbit).
  assert (∀ h, orbit (nextOf this) n h → h ∉ handled) as Hfresh.
  { intros h Ho Hh. apply Hin, Hhandled.
    apply Hhandled in Hh as (r & Hr & Hrh). exists r. split; [done|].
    eapply orbit_trans; [exact Hrh|]. by eapply orbit_sym. }
  split; [|split].
  - intros i j a b Hij Ha Hb.
    apply lookup_app_Some in Hb as [Hb | [Hge Hb]].
    + rewrite lookup_app_l in Ha by (apply lookup_lt_Some in Hb; lia).
      by eapply Hsorted.
    + apply list_lookup_singleton_Some in Hb as [Hz <-].
      rewrite lookup_app_l in Ha by lia.
      apply Hlt. by eapply list_elem_of_lookup_2.
  - intros r h [Hr | ->%list_elem_of_singleton]%elem_of_app Ho.
    + by apply Hleast.
    + destruct (decide (n ≤ h)) as [|Hless]; [done|].
      destruct (Hfresh h Ho). apply Hseen. lia.
  - exists (ls ++ [l]). split; [|split].
    + apply Forall2_app; [done|]. by constructor.
    + rewrite join_app. simpl. rewrite app_nil_r.
      apply NoDup_app. split; [done|]. split.
      * intros h Hh Hhl. apply (Hfresh h); [by apply Hl'|by apply Hmem].
      * by eapply nextLoopFrom_NoDup.
    + intros h. rewrite join_app. simpl. rewrite app_nil_r.
      rewrite elem_of_app, elem_of_union, elem_of_list_to_set, Hmem. done.
Qed.

Lemma loops_fold_inv_more n :
  n ≤ length (halfedges this) →
  loopsInvMore this (foldl (loopsStep this) (Some ([], ∅)) (seq 0 n)).
Proof.
  induction n as [|n IH]; intros Hn.
  - simpl. intros reps handled [= <- <-].
    split; [by intros i j a b _ Ha|]. split; [by intros r h Hr%elem_of_nil|].
    exists []. split; [constructor|]. split; [constructor|]. set_solver.
  - rewrite seq_S, foldl_app. simpl.
    apply loopsStep_inv_more; [lia| |apply IH; lia].
    apply loops_fold_inv; [done|lia].
Qed.
End LoopsOrder.

(** X7: the representatives that [loops()] returns are in increasing order,
    and each is the first halfedge of its loop in the order of the store. *)
Theorem loops_representatives_first (this : HalfedgeDS) reps :
  loopsClosed this → loops this = Some reps →
  (∀ i j a b, i < j → reps !! i = Some a → reps !! j = Some b → a < b)
  ∧ ∀ r h, r ∈ reps → inNextLoop this r h → r ≤ h.
Proof.
  intros Hclosed. unfold loops.
  destruct (foldl _ _ _) as [[reps' handled]|] eqn:Hfold; [|done].
  simpl. intros [= ->].
  pose proof (loops_fold_inv_more this Hclosed _ (le_n _) _ _ Hfold)
    as (Hsorted & Hleast & _).
  split; [done|]. intros r h Hr (l & Hl & Hin).
  apply Hleast; [done|]. by eapply nextLoopFrom_orbit.
Qed.

Lemma loops_representatives_first_witness :
  (∀ i j a b, i < j → [0; 3] !! i = Some a → [0; 3] !! j = Some b → a < b)
  ∧ ∀ r h, r ∈ [0; 3] → inNextLoop twoLoops r h → r ≤ h.
Proof.
  apply (loops_representatives_first twoLoops [0; 3]).
  - intros h Hh. simpl in Hh.
    assert (h = 0 ∨ h = 1 ∨ h = 2 ∨ h = 3 ∨ h = 4) as [->|[->|[->|[->| ->]]]] by lia.
    1-3: by (exists 3; split; [lia|]).
    all: by (exists 2; split; [lia|]).
  - vm_compute. reflexivity.
Defined.

(** X8: in a store whose loops are closed, the traversals of the
    representatives, one after the other, go through every halfedge of the
    store exactly once. *)
Theorem drawn_halfedges_once (this : HalfedgeDS) :
  loopsClosed this →
  ∃ l, drawnHalfedges this = Some l
       ∧ l ≡ₚ seq 0 (length (halfedges this)).
Proof.
  intros Hclosed. unfold drawnHalfedges, loops.
  destruct (loops_fold_inv this Hclosed (length (halfedges this)) (le_n _))
    as (reps & handled & Hfold & Hhandled & Hseen & _).
  pose proof (loops_fold_inv_more this Hclosed _ (le_n _) _ _ Hfold)
    as (_ & _ & ls & Hls & Hnd & Hmem).
  rewrite Hfold. simpl. apply mapM_Some_2 in Hls as Hmap. rewrite Hmap. simpl.
  exists (mjoin ls). split; [done|].
  apply NoDup_Permutation; [done|apply NoDup_seq|].
  intros h. rewrite elem_of_seq. split.
  - intros (l & Hin & Hl)%list_elem_of_join.
    apply list_elem_of_lookup in Hl as [i Hi].
    destruct (Forall2_lookup_r _ _ _ _ _ Hls Hi) as (r & _ & Hr).
    destruct (nextLoopFrom_member _ _ _ _ _ Hr Hin) as [[y Hy] _].
    split; [lia|]. simpl. by eapply nextOf_in_store.
  - intros [_ Hh]. apply Hmem, Hseen. simpl in Hh. lia.
Qed.

Lemma drawn_halfedges_once_witness :
  ∃ l, drawnHalfedges twoLoops = Some l
       ∧ l ≡ₚ seq 0 (length (halfedges twoLoops)).
Proof.
  apply (drawn_halfedges_once twoLoops).
  intros h Hh. simpl in Hh.
  assert (h = 0 ∨ h = 1 ∨ h = 2 ∨ h = 3 ∨ h = 4) as [->|[->|[->|[->| ->]]]] by lia.
  1-3: by (exists 3; split; [lia|]).
  all: by (exists 2; split; [lia|]).
Defined.

(** * Further properties of the builder *)

Lemma twinsPaired_nil : twinsPaired [].
Proof. split; [by exists 0|]. by intros [|h] t. Qed.

Lemma twinsPaired_app_pair twins :
  twinsPaired twins → twinsPaired (twins ++ [S (length twins); length twins]).
Proof.
  intros [[n Hn] Hpair]. split.
  - exists (S n). rewrite length_app. simpl. lia.
  - intros h t Hh. apply lookup_app_Some in Hh as [Hh | [Hge Hh]].
    + destruct (Hpair h t Hh) as [Hne Ht]. split; [done|].
      by apply lookup_app_l_Some.
    + destruct (h - length twins) as [|[|d]] eqn:Hd; simpl in Hh; [| |done].
      * injection Hh as <-. split; [lia|].
        rewrite lookup_app_r by lia.
        replace (S (length twins) - length twins) with 1 by lia.
        simpl. f_equal. lia.
      * injection Hh as <-. split; [lia|].
        rewrite lookup_app_r by lia. rewrite Nat.sub_diag. simpl. f_equal. lia.
Qed.

Section BuilderWf.
Variable positions : BufferAttribute.
Variable indexVertexArray : list nat.
Variable indexBuffer : option IndexAttribute.
Variable K : option nat → Prop.

Lemma resolveVertex_wf i1 st st' v :
  buildWf positions K st → K i1 →
  resolveVertex positions i1 st = (st', v) →
  buildWf positions K st'
  ∧ v < length (vertices (store st'))
  ∧ length (vertices (store st)) ≤ length (vertices (store st'))
  ∧ faces (store st') = faces (store st).
Proof.
  intros (Hmap & Hreg & Hface & Htwin & Horig) HK. unfold resolveVertex.
  destruct (vertexMap st !! i1) as [v1|] eqn:Hlook; intros [= <- <-].
  - split; [done|]. split; [|done].
    destruct (Hmap _ _ Hlook) as (_ & Hid & _).
    apply lookup_lt_Some in Hid. by rewrite length_fmap in Hid.
  - simpl. rewrite alter_snoc. simpl.
    split; [|rewrite length_app; simpl; split; [lia|split; [lia|done]]].
    split; [|split; [|split; [done|split; [done|]]]]; simpl.
    + intros i v. rewrite !fmap_app. simpl.
      destruct (decide (i1 = i)) as [<-|Hne].
      * rewrite lookup_insert_eq. intros [= <-].
        split; [done|].
        rewrite !lookup_app_r by (rewrite length_fmap; lia).
        by rewrite !length_fmap, Nat.sub_diag.
      * rewrite lookup_insert_ne by done. intros Hi.
        destruct (Hmap _ _ Hi) as (HKi & Hid & Hpos).
        split; [done|]. split; by apply lookup_app_l_Some.
    + intros v i. rewrite fmap_app. simpl.
      intros [Hv | [Hge Hv]]%lookup_app_Some.
      * specialize (Hreg _ _ Hv).
        rewrite lookup_insert_ne; [done|]. intros <-. congruence.
      * rewrite length_fmap in Hge, Hv.
        destruct (v - length (vertices (store st))) as [|d] eqn:Hd; [|done].
        simpl in Hv. injection Hv as <-.
        assert (v = length (vertices (store st))) as -> by lia.
        apply lookup_insert_eq.
    + intros h v Hv. rewrite length_app. simpl.
      specialize (Horig _ _ Hv). lia.
Qed.

Lemma resolveEdge_wf i1 i2 v1 v2 st st' o :
  buildWf positions K st →
  v1 < length (vertices (store st)) → v2 < length (vertices (store st)) →
  resolveEdge i1 i2 v1 v2 st = (st', o) →
  buildWf positions K st'.
Proof.
  intros (Hmap & Hreg & Hface & Htwin & Horig) Hv1 Hv2. unfold resolveEdge, addEdge.
  destruct (halfedgeMap st !! edgeHash i1 i2); [by intros [= <- <-]|].
  case_decide; intros [= <- <-]; [done|].
  unfold buildWf; simpl.
  rewrite !(fmap_alter_preserved Vertex.id) by apply lazyOutgoing_id.
  rewrite !(fmap_alter_preserved Vertex.position) by apply lazyOutgoing_position.
  rewrite !length_alter, !fmap_app. simpl.
  split; [done|]. split; [done|]. split; [done|]. split.
  - rewrite <- (length_fmap Halfedge.twin). by apply twinsPaired_app_pair.
  - intros h' v [Hv | [_ Hv]]%lookup_app_Some; [by eapply Horig|].
    destruct (h' - _) as [|[|d]]; simpl in Hv; [| |done]; by injection Hv as <-.
Qed.

Lemma buildWf_logReads rs st :
  buildWf positions K st → buildWf positions K (logReads rs st).
Proof. done. Qed.

Lemma resolveSide_wf faceIndex i st st' o :
  buildWf positions K st →
  K (sideIndices indexVertexArray indexBuffer faceIndex i).1 →
  K (sideIndices indexVertexArray indexBuffer faceIndex i).2 →
  resolveSide positions indexVertexArray indexBuffer faceIndex i st = (st', o) →
  buildWf positions K st' ∧ faces (store st') = faces (store st).
Proof.
  intros Hwf. unfold resolveSide.
  destruct (sideIndices _ _ _ _) as [i1 i2]. simpl. intros HK1 HK2.
  destruct (resolveVertex positions i1 _) as [st1 v1] eqn:H1.
  destruct (resolveVertex positions i2 _) as [st2 v2] eqn:H2.
  intros H3.
  destruct (resolveVertex_wf _ _ _ _ (buildWf_logReads _ _ Hwf) HK1 H1)
    as (Hwf1 & Hv1 & _ & Hf1).
  destruct (resolveVertex_wf _ _ _ _ (buildWf_logReads _ _ Hwf1) HK2 H2)
    as (Hwf2 & Hv2 & Hle & Hf2).
  destruct (resolveEdge_frame _ _ _ _ _ _ _ H3) as (_ & _ & Hf3 & _).
  simpl in Hf1, Hf2, Hle. split; [|congruence].
  eapply resolveEdge_wf; [done| |done|done]. lia.
Qed.

Lemma resolveSidesFrom_wf faceIndex sides st loopHalfedges st' o :
  buildWf positions K st →
  (∀ i, i ∈ sides →
     K (sideIndices indexVertexArray indexBuffer faceIndex i).1
     ∧ K (sideIndices indexVertexArray indexBuffer faceIndex i).2) →
  resolveSidesFrom positions indexVertexArray indexBuffer faceIndex sides st
    loopHalfedges = (st', o) →
  buildWf positions K st' ∧ faces (store st') = faces (store st).
Proof.
  revert st loopHalfedges.
  induction sides as [|i sides IH]; intros st loopHalfedges Hwf HK; simpl.
  { by intros [= <- <-]. }
  destruct (HK i) as [Ka Kb]; [apply list_elem_of_here|].
  destruct (resolveSide _ _ _ faceIndex i st) as [st1 [e|h1]] eqn:H1.
  - intros [= <- <-]. by eapply resolveSide_wf.
  - intros Hrest.
    destruct (resolveSide_wf _ _ _ _ _ Hwf Ka Kb H1) as [Hwf1 Hf1].
    assert (∀ j, j ∈ sides →
              K (sideIndices indexVertexArray indexBuffer faceIndex j).1
              ∧ K (sideIndices indexVertexArray indexBuffer faceIndex j).2) as HK'
      by (intros j Hj; apply HK; by apply list_elem_of_further).
    destruct (IH _ _ Hwf1 HK' Hrest) as [Hwf' Hf'].
    split; [done|congruence].
Qed.

Lemma resolveSides_wf faceIndex st st' o :
  buildWf positions K st →
  (∀ i, i < 3 →
     K (sideIndices indexVertexArray indexBuffer faceIndex i).1
     ∧ K (sideIndices indexVertexArray indexBuffer faceIndex i).2) →
  resolveSides positions indexVertexArray indexBuffer faceIndex st = (st', o) →
  buildWf positions K st' ∧ faces (store st') = faces (store st).
Proof.
  intros Hwf HK. apply resolveSidesFrom_wf; [done|].
  intros i Hi. apply HK. set_unfold. lia.
Qed.

(** A face step keeps the invariant, whether it throws or not; when it
    does not, the store has one face more. *)
Lemma buildFace_wf st st' faceIndex o :
  buildWf positions K st →
  (∀ i, i < 3 →
     K (sideIndices indexVertexArray indexBuffer faceIndex i).1
     ∧ K (sideIndices indexVertexArray indexBuffer faceIndex i).2) →
  faceIndex = length (faces (store st)) →
  buildFace positions indexVertexArray indexBuffer st faceIndex = (st', o) →
  buildWf positions K st'
  ∧ length (faces (store st'))
    = match o with
      | None => S faceIndex
      | Some _ => faceIndex
      end.
Proof.
  intros Hwf HK Hidx. unfold buildFace.
  destruct (resolveSides _ _ _ faceIndex st) as [st1 [e|l]] eqn:H1;
    destruct (resolveSides_wf _ _ _ _ Hwf HK H1) as [Hwf1 Hf].
  { intros [= <- <-]. split; [done|]. congruence. }
  unfold addFace. case_decide as Hex.
  - intros [= <- <-]. split; [done|]. congruence.
  - intros [= <- <-]. destruct Hwf1 as (Hmap & Hreg & Hface & Htwin & Horig).
    unfold buildWf; simpl. rewrite alter_snoc.
    destruct (wire_twin_vertex l (length (faces (store st1)))
                (seq 0 (length l)) (halfedges (store st1))) as [-> ->].
    split; [|rewrite length_app, Hf; simpl; lia].
    split; [done|]. split; [done|]. split; [|done].
    intros k f [Hk | [Hge Hk]]%lookup_app_Some; [by apply Hface|].
    destruct (k - length (faces (store st1))) as [|d] eqn:Hd; [|done].
    simpl in Hk. injection Hk as <-. simpl. f_equal.
    rewrite Hf in Hd, Hge. lia.
Qed.

Lemma faceLoop_wf first n st st' o :
  buildWf positions K st →
  (∀ faceIndex i, first ≤ faceIndex → faceIndex < first + n → i < 3 →
     K (sideIndices indexVertexArray indexBuffer faceIndex i).1
     ∧ K (sideIndices indexVertexArray indexBuffer faceIndex i).2) →
  first = length (faces (store st)) →
  faceLoop positions indexVertexArray indexBuffer (seq first n) st = (st', o) →
  buildWf positions K st'
  ∧ match o with
    | None => length (faces (store st')) = first + n
    | Some _ => length (faces (store st')) < first + n
    end.
Proof.
  revert first st. induction n as [|n IH]; intros first st Hwf HK Hfirst; simpl.
  { intros [= <- <-]. split; [done|lia]. }
  assert (∀ i, i < 3 →
            K (sideIndices indexVertexArray indexBuffer first i).1
            ∧ K (sideIndices indexVertexArray indexBuffer first i).2) as HK0
    by (intros; apply HK; lia).
  destruct (buildFace _ _ _ st first) as [st1 [e|]] eqn:Hface.
  - intros [= <- <-].
    destruct (buildFace_wf _ _ _ _ Hwf HK0 Hfirst Hface) as [Hwf1 Hlen].
    split; [done|lia].
  - intros Hrest.
    destruct (buildFace_wf _ _ _ _ Hwf HK0 Hfirst Hface) as [Hwf1 Hlen].
    destruct (IH (S first) st1 Hwf1) as [Hwf' Hlen'];
      [intros; apply HK; lia|done|exact Hrest|].
    split; [done|]. destruct o; lia.
Qed.
End BuilderWf.

Lemma initialState_wf positions K this : buildWf positions K (initialState this).
Proof.
  split; [intros i v Hi; simpl in Hi; by rewrite lookup_empty in Hi|].
  split; [by intros [|v] i|]. split; [by intros [|k] f|].
  split; [apply twinsPaired_nil|]. by intros [|h] v.
Qed.

Lemma computeVerticesIndexArray_entry positions tol k c :
  computeVerticesIndexArray positions tol !! k = Some c →
  c < count positions ∧ computeVerticesIndexArray positions tol !! c = Some c.
Proof.
  intros Hk.
  assert (k < count positions) as Hlt.
  { apply lookup_lt_Some in Hk. by rewrite computeVerticesIndexArray_length in Hk. }
  destruct (computeVerticesIndexArray_first positions tol k Hlt)
    as (c' & Hc' & Hle & Hkey & Hmin).
  assert (c' = c) as -> by congruence.
  split; [lia|]. apply own_representative_iff_first; [lia|].
  intros j Hj. rewrite Hkey. by apply Hmin.
Qed.

Lemma getVertexIndex_entry positions tol indexBuffer bufferIndex c :
  getVertexIndex (computeVerticesIndexArray positions tol) indexBuffer bufferIndex
    = Some c →
  c < count positions ∧ computeVerticesIndexArray positions tol !! c = Some c.
Proof.
  unfold getVertexIndex. destruct indexBuffer as [ib|].
  - destruct (index_array ib !! bufferIndex) as [k|]; [|done]. simpl.
    apply computeVerticesIndexArray_entry.
  - apply computeVerticesIndexArray_entry.
Qed.

(** The store that a build leaves comes from a state that satisfies the
    invariant, and the number of its faces tells how far the loop went. *)
Lemma buildFromGeometry_wf this geometry positions (K : option nat → Prop) :
  position geometry = Some positions →
  (∀ faceIndex i,
     faceIndex ∈ forRange (nbOfFaces positions (index geometry)) → i < 3 →
     K (sideIndices (computeVerticesIndexArray positions (tolerance this))
          (index geometry) faceIndex i).1
     ∧ K (sideIndices (computeVerticesIndexArray positions (tolerance this))
            (index geometry) faceIndex i).2) →
  ∃ st,
    (buildFromGeometry this geometry).1 = store st
    ∧ buildWf positions K st
    ∧ match (buildFromGeometry this geometry).2 with
      | None => length (faces (store st))
                = length (forRange (nbOfFaces positions (index geometry)))
      | Some _ => length (faces (store st))
                  < length (forRange (nbOfFaces positions (index geometry)))
      end.
Proof.
  intros Hpos HK. unfold buildFromGeometry, buildRun. rewrite Hpos. simpl.
  rewrite forRange_seq in HK |- *.
  set (m := length (forRange (nbOfFaces positions (index geometry)))) in *.
  assert (∀ faceIndex i, 0 ≤ faceIndex → faceIndex < 0 + m → i < 3 →
            K (sideIndices (computeVerticesIndexArray positions (tolerance this))
                 (index geometry) faceIndex i).1
            ∧ K (sideIndices (computeVerticesIndexArray positions (tolerance this))
                   (index geometry) faceIndex i).2) as HK'.
  { intros faceIndex i _ Hf Hi. apply HK; [|done]. apply elem_of_seq. lia. }
  destruct (faceLoop _ _ _ _ _) as [st o] eqn:Hloop.
  exists st. simpl.
  destruct (faceLoop_wf positions _ _ K 0 m _ _ _
              (initialState_wf positions K this) HK' eq_refl Hloop)
    as [Hwf Hlen].
  split; [done|]. split; [done|]. by rewrite length_seq.
Qed.

(** X9: in the store that a build leaves, no two vertices have the same
    identifier; the identifier of a vertex is a canonical index, and the
    position of the vertex is the one read in the buffer at this index. *)
Theorem build_vertex_ids this geometry positions :
  position geometry = Some positions →
  NoDup (Vertex.id <$> vertices (buildFromGeometry this geometry).1)
  ∧ ∀ r, r ∈ vertices (buildFromGeometry this geometry).1 →
      canonicalIndex (computeVerticesIndexArray positions (tolerance this))
        (Vertex.id r)
      ∧ Vertex.position r = fromBufferAttribute positions (Vertex.id r).
Proof.
  intros Hpos.
  destruct (buildFromGeometry_wf this geometry positions
              (canonicalIndex (computeVerticesIndexArray positions (tolerance this)))
              Hpos) as (st & -> & (Hmap & Hreg & _) & _).
  { intros faceIndex i _ _. unfold sideIndices; simpl.
    split; intros k Hk; by eapply getVertexIndex_entry. }
  split.
  - apply NoDup_alt. intros v1 v2 i H1 H2.
    apply Hreg in H1, H2. congruence.
  - intros r [v Hv]%list_elem_of_lookup.
    assert ((Vertex.id <$> vertices (store st)) !! v = Some (Vertex.id r)) as Hid
      by (by rewrite list_lookup_fmap, Hv).
    destruct (Hmap _ _ (Hreg _ _ Hid)) as (HK & _ & Hp).
    split; [done|].
    rewrite list_lookup_fmap, Hv in Hp. simpl in Hp. congruence.
Qed.

Lemma build_vertex_ids_witness :
  NoDup (Vertex.id <$> vertices (buildFromGeometry (newHalfedgeDS 1) doubledTriangle).1)
  ∧ ∀ r, r ∈ vertices (buildFromGeometry (newHalfedgeDS 1) doubledTriangle).1 →
      canonicalIndex
        (computeVerticesIndexArray
           (pointsAttribute
              [(0, 0, 0); (1, 0, 0); (0, 1, 0); (0, 0, 0); (1, 0, 0); (0, 1, 0)]%Q)
           (tolerance (newHalfedgeDS 1)))
        (Vertex.id r)
      ∧ Vertex.position r
        = fromBufferAttribute
            (pointsAttribute
               [(0, 0, 0); (1, 0, 0); (0, 1, 0); (0, 0, 0); (1, 0, 0); (0, 1, 0)]%Q)
            (Vertex.id r).
Proof. apply (build_vertex_ids (newHalfedgeDS 1) doubledTriangle). reflexivity. Defined.

(** X10: when the input is well indexed (whole items, a number of corners
    that is a multiple of 3, index entries that refer to positions), a build
    leaves at most as many vertices as there are positions. *)
Theorem build_vertex_count this geometry positions :
  position geometry = Some positions →
  wellIndexed positions (index geometry) →
  length (vertices (buildFromGeometry this geometry).1) ≤ count positions.
Proof.
  intros Hpos Hwf.
  destruct (buildFromGeometry_wf this geometry positions
              (λ o, ∃ k, o = Some k ∧ k < count positions) Hpos)
    as (st & -> & (Hmap & Hreg & _) & _).
  { intros faceIndex i Hf Hi.
    apply elem_of_forRange_nbOfFaces in Hf.
    assert (faceIndex * 3 + 3 ≤ cornerCount positions (index geometry)) as Hall.
    { destruct Hwf as [_ Hm]. destruct (index geometry) as [ib|];
        [destruct Hm as [Hm _]|]; unfold cornerCount in *;
        apply Nat.Div0.div_exact in Hm; lia. }
    pose proof (Nat.mod_upper_bound (i + 1) 3 ltac:(lia)).
    unfold sideIndices; simpl.
    split.
    - destruct (readsInBounds_corner positions (tolerance this) (index geometry)
                  (faceIndex * 3 + i) Hwf ltac:(lia)) as [_ (c & Hc & _)].
      exists c. split; [done|]. by eapply getVertexIndex_entry.
    - destruct (readsInBounds_corner positions (tolerance this) (index geometry)
                  (faceIndex * 3 + (i + 1) mod 3) Hwf ltac:(lia)) as [_ (c & Hc & _)].
      exists c. split; [done|]. by eapply getVertexIndex_entry. }
  assert (NoDup (Vertex.id <$> vertices (store st))) as Hnodup.
  { apply NoDup_alt. intros v1 v2 i H1 H2. apply Hreg in H1, H2. congruence. }
  assert (∀ o, o ∈ Vertex.id <$> vertices (store st) →
               o ∈ Some <$> seq 0 (count positions)) as Hsub.
  { intros o [v Hv]%list_elem_of_lookup.
    destruct (Hmap _ _ (Hreg _ _ Hv)) as ((k & -> & Hk) & _).
    apply list_elem_of_fmap. exists k. split; [done|]. apply elem_of_seq. lia. }
  pose proof (submseteq_length _ _ (NoDup_submseteq _ _ Hnodup Hsub)) as Hlen.
  by rewrite !length_fmap, length_seq in Hlen.
Qed.

Lemma build_vertex_count_witness :
  length (vertices (buildFromGeometry (newHalfedgeDS 1) doubledTriangle).1) ≤ 6.
Proof.
  apply (build_vertex_count (newHalfedgeDS 1) doubledTriangle
           (pointsAttribute
              [(0, 0, 0); (1, 0, 0); (0, 1, 0); (0, 0, 0); (1, 0, 0); (0, 1, 0)]%Q)).
  - reflexivity.
  - split; [simpl; lia|reflexivity].
Defined.

(** X11: in the store that a build leaves, face [k] has the identifier [k].
    A build that does not throw leaves one face for every three corners
    (when their number is a multiple of 3); a build that throws leaves fewer
    faces than a third of the corners. *)
Theorem build_faces_numbered this geometry positions :
  position geometry = Some positions →
  (∀ k f, faces (buildFromGeometry this geometry).1 !! k = Some f →
          Face.id f = Some k)
  ∧ ((buildFromGeometry this geometry).2 = None →
     cornerCount positions (index geometry) mod 3 = 0 →
     length (faces (buildFromGeometry this geometry).1)
     = cornerCount positions (index geometry) / 3)
  ∧ (is_Some (buildFromGeometry this geometry).2 →
     length (faces (buildFromGeometry this geometry).1) * 3
     < cornerCount positions (index geometry)).
Proof.
  intros Hpos.
  destruct (buildFromGeometry_wf this geometry positions (λ _, True) Hpos)
    as (st & -> & (_ & _ & Hface & _) & Hlen); [done|].
  pose proof (forRange_length positions (index geometry)) as [Hup Hlow].
  split; [done|]. split.
  - intros Hnone Hmod. rewrite Hnone in Hlen. rewrite Hlen.
    apply Nat.Div0.div_exact in Hmod.
    apply Nat.div_unique with (r := 0); lia.
  - intros [e He]. rewrite He in Hlen. lia.
Qed.

Lemma build_faces_numbered_witness :
  (∀ k f, faces (buildFromGeometry (newHalfedgeDS 1) doubledTriangle).1 !! k = Some f →
          Face.id f = Some k)
  ∧ length (faces (buildFromGeometry (newHalfedgeDS 1) doubledTriangle).1) * 3 < 6
  ∧ length (faces (buildFromGeometry (newHalfedgeDS 1)
                     (triSoup [(0, 0, 0); (1, 0, 0); (0, 1, 0)]%Q)).1) = 3 / 3.
Proof.
  split; [|split].
  - apply (build_faces_numbered (newHalfedgeDS 1) doubledTriangle _ eq_refl).
  - apply (build_faces_numbered (newHalfedgeDS 1) doubledTriangle _ eq_refl).
    vm_compute. eexists. reflexivity.
  - apply (build_faces_numbered (newHalfedgeDS 1)
             (triSoup [(0, 0, 0); (1, 0, 0); (0, 1, 0)]%Q) _ eq_refl).
    + vm_compute. reflexivity.
    + reflexivity.
Defined.

(** X12: whatever the input, in the store that a build leaves the halfedges
    come in twin pairs (an even number, no halfedge its own twin, the twin
    of the twin the halfedge itself) and the origin of every halfedge is a
    vertex of the store. *)
Theorem build_halfedge_references this geometry :
  twinsPaired (Halfedge.twin <$> halfedges (buildFromGeometry this geometry).1)
  ∧ ∀ h r, halfedges (buildFromGeometry this geometry).1 !! h = Some r →
      Halfedge.vertex r < length (vertices (buildFromGeometry this geometry).1).
Proof.
  destruct (position geometry) as [positions|] eqn:Hpos.
  - destruct (buildFromGeometry_wf this geometry positions (λ _, True) Hpos)
      as (st & -> & (_ & _ & _ & Htwin & Horig) & _); [done|].
    split; [done|]. intros h r Hr. apply (Horig h).
    by rewrite list_lookup_fmap, Hr.
  - unfold buildFromGeometry, buildRun. rewrite Hpos. simpl.
    split; [apply twinsPaired_nil|]. by intros [|h] r.
Qed.

(** X13: a geometry with a position attribute and no corner gives the empty
    store, and no exception. *)
Theorem build_of_no_corner this geometry positions :
  position geometry = Some positions →
  cornerCount positions (index geometry) = 0 →
  buildFromGeometry this geometry = (clear this, None).
Proof.
  intros Hpos Hzero. unfold buildFromGeometry, buildRun. rewrite Hpos.
  assert (forRange (nbOfFaces positions (index geometry)) = []) as ->; [|done].
  pose proof (forRange_length positions (index geometry)) as [Hup _].
  rewrite Hzero in Hup.
  destruct (forRange _) as [|f fs]; [done|]. simpl in Hup. lia.
Qed.

Lemma build_of_no_corner_witness :
  buildFromGeometry (newHalfedgeDS 1) (triSoup []) = (clear (newHalfedgeDS 1), None).
Proof.
  apply (build_of_no_corner (newHalfedgeDS 1) (triSoup []) (pointsAttribute []));
    reflexivity.
Defined.

(** *** The edge map *)

Section EdgeMap.
Variable positions : BufferAttribute.
Variable indexVertexArray : list nat.
Variable indexBuffer : option IndexAttribute.

Let K (_ : option nat) : Prop := True.

Lemma edgesWf_logReads rs st : edgesWf st → edgesWf (logReads rs st).
Proof. done. Qed.

Lemma resolveVertex_edges i1 st st' v :
  buildWf positions K st → edgesWf st →
  resolveVertex positions i1 st = (st', v) → edgesWf st'.
Proof.
  intros (_ & _ & _ & _ & Horig) [Hrev Hreg]. unfold resolveVertex.
  destruct (vertexMap st !! i1) as [v1|]; intros [= <- <-]; [done|].
  split; simpl; [done|]. rewrite alter_snoc, fmap_app.
  intros h o t d j1 j2 Ho Ht Hd H1 H2 Hne.
  apply (Hreg h o t d); try done.
  - apply lookup_app_Some in H1 as [H1 | [Hge _]]; [done|].
    specialize (Horig _ _ Ho). rewrite length_fmap in Hge. lia.
  - apply lookup_app_Some in H2 as [H2 | [Hge _]]; [done|].
    specialize (Horig _ _ Hd). rewrite length_fmap in Hge. lia.
Qed.

Lemma resolveEdge_edges i1 i2 v1 v2 st st' o :
  buildWf positions K st → edgesWf st →
  vertexMap st !! i1 = Some v1 → vertexMap st !! i2 = Some v2 →
  resolveEdge i1 i2 v1 v2 st = (st', o) → edgesWf st'.
Proof.
  intros (Hmap & _ & _ & [_ Htwin] & _) [Hrev Hreg] Hv1 Hv2.
  unfold resolveEdge, addEdge.
  destruct (halfedgeMap st !! edgeHash i1 i2) as [h0|] eqn:Hlook;
    [by intros [= <- <-]|].
  case_decide as Hv; intros [= <- <-]; [done|].
  destruct (Hmap _ _ Hv1) as (_ & Hid1 & _).
  destruct (Hmap _ _ Hv2) as (_ & Hid2 & _).
  set (n := length (halfedges (store st))).
  assert (length (Halfedge.twin <$> halfedges (store st)) = n) as Hlt
    by apply length_fmap.
  assert (length (Halfedge.vertex <$> halfedges (store st)) = n) as Hlo
    by apply length_fmap.
  assert (∀ j1 j2 h', j1 ≠ j2 →
            halfedgeMap st !! edgeHash j1 j2 = Some h' →
            edgeHash i1 i2 ≠ edgeHash j1 j2 ∧ edgeHash i2 i1 ≠ edgeHash j1 j2)
    as Hother.
  { intros j1 j2 h' Hne Hj. split; [intros Heq; congruence|].
    intros [<- <-]%edgeHash_inj.
    destruct (Hrev _ _ _ Hne Hj) as (t & _ & Ht). congruence. }
  unfold edgesWf; simpl.
  assert (twinOf
            (setVertices
               (setHalfedges (store st)
                  (halfedges (store st) ++
                   [ {| Halfedge.vertex := v1; Halfedge.twin := S n;
                        Halfedge.next := None; Halfedge.prev := None;
                        Halfedge.face := None |};
                     {| Halfedge.vertex := v2; Halfedge.twin := n;
                        Halfedge.next := None; Halfedge.prev := None;
                        Halfedge.face := None |} ]))
               (alter (lazyOutgoing (S n)) v2
                  (alter (lazyOutgoing n) v1 (vertices (store st))))) n
          = S n) as ->.
  { unfold twinOf; simpl. by rewrite lookup_app_r, Nat.sub_diag by lia. }
  rewrite !(fmap_alter_preserved Vertex.id) by apply lazyOutgoing_id.
  rewrite !fmap_app. simpl. fold n.
  split.
  - intros j1 j2 h' Hne.
    destruct (decide (edgeHash i2 i1 = edgeHash j1 j2)) as [Heq|Hne2].
    { apply edgeHash_inj in Heq as [<- <-].
      rewrite lookup_insert_eq. intros [= <-]. exists n.
      split; [by rewrite lookup_app_r, Hlt by lia;
              replace (S n - n) with 1 by lia|].
      rewrite lookup_insert_ne, lookup_insert_eq; [done|].
      intros [-> _]%edgeHash_inj. done. }
    rewrite lookup_insert_ne by done.
    destruct (decide (edgeHash i1 i2 = edgeHash j1 j2)) as [Heq|Hne1].
    { apply edgeHash_inj in Heq as [<- <-].
      rewrite lookup_insert_eq. intros [= <-]. exists (S n).
      split; [by rewrite lookup_app_r, Hlt, Nat.sub_diag by lia|].
      apply lookup_insert_eq. }
    rewrite lookup_insert_ne by done. intros Hj.
    destruct (Hrev _ _ _ Hne Hj) as (t & Ht & Hback).
    exists t. split; [by apply lookup_app_l_Some|].
    destruct (Hother j2 j1 t) as [? ?]; [done|done|].
    by rewrite !lookup_insert_ne.
  - intros h' o t d j1 j2 Ho Ht Hd H1 H2 Hne.
    apply lookup_app_Some in Ht as [Ht | [Hge Ht]].
    + (* an old halfedge *)
      pose proof (lookup_lt_Some _ _ _ Ht) as Hh'. rewrite Hlt in Hh'.
      rewrite lookup_app_l in Ho by lia.
      destruct (Htwin _ _ Ht) as [_ Hback].
      pose proof (lookup_lt_Some _ _ _ Hback) as Ht'. rewrite Hlt in Ht'.
      rewrite lookup_app_l in Hd by lia.
      pose proof (Hreg _ _ _ _ _ _ Ho Ht Hd H1 H2 Hne) as Hj.
      destruct (Hother _ _ _ Hne Hj) as [? ?].
      by rewrite !lookup_insert_ne.
    + rewrite Hlt in Hge, Ht. rewrite lookup_app_r, Hlo in Ho by lia.
      destruct (h' - n) as [|[|k]] eqn:Hk; simpl in Ho, Ht; [| |done].
      * injection Ho as <-. injection Ht as <-.
        rewrite lookup_app_r, Hlo in Hd by lia.
        replace (S n - n) with 1 in Hd by lia. simpl in Hd. injection Hd as <-.
        assert (j1 = i1) as -> by congruence.
        assert (j2 = i2) as -> by congruence.
        assert (h' = n) as -> by lia.
        rewrite lookup_insert_ne, lookup_insert_eq; [done|].
        intros [-> _]%edgeHash_inj. done.
      * injection Ho as <-. injection Ht as <-.
        rewrite lookup_app_r, Hlo, Nat.sub_diag in Hd by lia.
        simpl in Hd. injection Hd as <-.
        assert (j1 = i2) as -> by congruence.
        assert (j2 = i1) as -> by congruence.
        assert (h' = S n) as -> by lia.
        apply lookup_insert_eq.
Qed.

Lemma resolveSide_edges faceIndex i st st' o :
  buildWf positions K st → edgesWf st →
  resolveSide positions indexVertexArray indexBuffer faceIndex i st = (st', o) →
  edgesWf st'.
Proof.
  intros Hwf Hed. unfold resolveSide.
  destruct (sideIndices _ _ _ _) as [i1 i2].
  destruct (resolveVertex positions i1 _) as [st1 v1] eqn:H1.
  destruct (resolveVertex positions i2 _) as [st2 v2] eqn:H2.
  intros H3.
  destruct (resolveVertex_wf positions K _ _ _ _ (buildWf_logReads _ _ _ _ Hwf) I H1)
    as (Hwf1 & _).
  destruct (resolveVertex_wf positions K _ _ _ _ (buildWf_logReads _ _ _ _ Hwf1) I H2)
    as (Hwf2 & _).
  pose proof (resolveVertex_edges _ _ _ _ (buildWf_logReads _ _ _ _ Hwf)
                (edgesWf_logReads _ _ Hed) H1) as Hed1.
  pose proof (resolveVertex_edges _ _ _ _ (buildWf_logReads _ _ _ _ Hwf1)
                (edgesWf_logReads _ _ Hed1) H2) as Hed2.
  destruct (resolveVertex_lookup _ _ _ _ _ H1) as [Hl1 _].
  destruct (resolveVertex_lookup _ _ _ _ _ H2) as [Hl2 Hmono].
  eapply resolveEdge_edges; [exact Hwf2|exact Hed2| | |exact H3]; [|done].
  by apply Hmono.
Qed.

Lemma resolveSidesFrom_edges faceIndex sides st loopHalfedges st' o :
  buildWf positions K st → edgesWf st →
  resolveSidesFrom positions indexVertexArray indexBuffer faceIndex sides st
    loopHalfedges = (st', o) →
  edgesWf st'.
Proof.
  revert st loopHalfedges.
  induction sides as [|i sides IH]; intros st loopHalfedges Hwf Hed; simpl.
  { by intros [= <- <-]. }
  destruct (resolveSide _ _ _ faceIndex i st) as [st1 [e|h1]] eqn:H1.
  - intros [= <- <-]. by eapply resolveSide_edges.
  - destruct (resolveSide_wf positions _ _ K _ _ _ _ _ Hwf I I H1) as [Hwf1 _].
    pose proof (resolveSide_edges _ _ _ _ _ Hwf Hed H1) as Hed1.
    by apply IH.
Qed.

Lemma addFace_frame struct loopHalfedges struct' f :
  addFace struct loopHalfedges = inr (struct', f) →
  Halfedge.twin <$> halfedges struct' = Halfedge.twin <$> halfedges struct
  ∧ Halfedge.vertex <$> halfedges struct' = Halfedge.vertex <$> halfedges struct
  ∧ vertices struct' = vertices struct.
Proof.
  unfold addFace. case_decide; [done|]. intros [= <- <-].
  split; [apply wire_twin_vertex|]. split; [apply wire_twin_vertex|done].
Qed.

Lemma buildFace_edges st st' faceIndex o :
  buildWf positions K st → edgesWf st →
  buildFace positions indexVertexArray indexBuffer st faceIndex = (st', o) →
  edgesWf st'.
Proof.
  intros Hwf Hed. unfold buildFace, resolveSides.
  destruct (resolveSidesFrom _ _ _ faceIndex _ st []) as [st1 [e|l]] eqn:H1;
    pose proof (resolveSidesFrom_edges _ _ _ _ _ _ Hwf Hed H1) as Hed1;
    [by intros [= <- <-]|].
  destruct (addFace (store st1) l) as [e|[ds f]] eqn:Hadd; intros [= <- <-]; [done|].
  destruct (addFace_frame _ _ _ _ Hadd) as (Htw & Hor & Hvs).
  destruct Hed1 as [Hrev Hreg]. unfold edgesWf.
  cbn [store halfedgeMap setFaces halfedges vertices].
  rewrite Htw, Hor, Hvs. done.
Qed.

Lemma faceLoop_edges first n st st' o :
  buildWf positions K st → edgesWf st →
  first = length (faces (store st)) →
  faceLoop positions indexVertexArray indexBuffer (seq first n) st = (st', o) →
  edgesWf st'.
Proof.
  revert first st. induction n as [|n IH]; intros first st Hwf Hed Hfirst; simpl.
  { by intros [= <- <-]. }
  destruct (buildFace _ _ _ st first) as [st1 o1] eqn:Hface.
  pose proof (buildFace_edges _ _ _ _ Hwf Hed Hface) as Hed1.
  destruct (buildFace_wf positions _ _ K _ _ _ _ Hwf ltac:(done) Hfirst Hface)
    as [Hwf1 Hlen].
  destruct o1 as [e|]; [by intros [= <- <-]|].
  by apply IH.
Qed.
End EdgeMap.

Lemma initialState_edges this : edgesWf (initialState this).
Proof.
  split.
  - intros i1 i2 h _ Hh. simpl in Hh. by rewrite lookup_empty in Hh.
  - by intros [|h] o t d i1 i2.
Qed.

(** X14: in the store that a build leaves, two halfedges with the same
    origin and the same destination (the origin of the twin) are one
    halfedge, when origin and destination are different vertices: an edge
    met again, in either direction, is not made anew. *)
Theorem build_no_duplicate_edge this geometry h1 h2 r1 r2 t1 t2 :
  halfedges (buildFromGeometry this geometry).1 !! h1 = Some r1 →
  halfedges (buildFromGeometry this geometry).1 !! h2 = Some r2 →
  halfedges (buildFromGeometry this geometry).1 !! Halfedge.twin r1 = Some t1 →
  halfedges (buildFromGeometry this geometry).1 !! Halfedge.twin r2 = Some t2 →
  Halfedge.vertex r1 = Halfedge.vertex r2 →
  Halfedge.vertex t1 = Halfedge.vertex t2 →
  Halfedge.vertex r1 ≠ Halfedge.vertex t1 →
  h1 = h2.
Proof.
  unfold buildFromGeometry, buildRun.
  destruct (position geometry) as [positions|]; [|by intros Hh; destruct h1].
  rewrite forRange_seq.
  destruct (faceLoop _ _ _ _ _) as [st o] eqn:Hloop. simpl.
  destruct (faceLoop_wf positions _ _ (λ _, True) 0 _ _ _ _
              (initialState_wf positions _ this) ltac:(done) eq_refl Hloop)
    as [(Hmap & Hreg & _ & _ & Horig) _].
  pose proof (faceLoop_edges positions _ _ 0 _ _ _ _
                (initialState_wf positions _ this) (initialState_edges this)
                eq_refl Hloop) as [_ Hkeys].
  intros Hr1 Hr2 Ht1 Ht2 Ho Hd Hne.
  assert (∀ h r, halfedges (store st) !! h = Some r →
            ∃ i, (Vertex.id <$> vertices (store st)) !! Halfedge.vertex r = Some i)
    as Hid.
  { intros h r Hr. apply lookup_lt_is_Some. rewrite length_fmap.
    apply (Horig h). by rewrite list_lookup_fmap, Hr. }
  destruct (Hid _ _ Hr1) as [i1 Hi1]. destruct (Hid _ _ Ht1) as [i2 Hi2].
  assert (i1 ≠ i2) as Hi.
  { intros <-. apply Hne. apply Hreg in Hi1, Hi2. congruence. }
  assert (halfedgeMap st !! edgeHash i1 i2 = Some h1) as Hk1.
  { apply (Hkeys h1 (Halfedge.vertex r1) (Halfedge.twin r1) (Halfedge.vertex t1));
      try done; by rewrite list_lookup_fmap, ?Hr1, ?Ht1. }
  assert (halfedgeMap st !! edgeHash i1 i2 = Some h2) as Hk2.
  { apply (Hkeys h2 (Halfedge.vertex r2) (Halfedge.twin r2) (Halfedge.vertex t2));
      try done; try (by rewrite list_lookup_fmap, ?Hr2, ?Ht2); congruence. }
  congruence.
Qed.

Lemma build_no_duplicate_edge_witness :
  halfedges (buildFromGeometry (newHalfedgeDS 1)
               (triSoup [(0, 0, 0); (1, 0, 0); (0, 1, 0)]%Q)).1 !! 0
    = Some {| Halfedge.vertex := 0; Halfedge.twin := 1; Halfedge.next := Some 2;
              Halfedge.prev := Some 4; Halfedge.face := Some 0 |}
  ∧ 0 = 0.
Proof.
  split; [vm_compute; reflexivity|].
  apply (build_no_duplicate_edge (newHalfedgeDS 1)
           (triSoup [(0, 0, 0); (1, 0, 0); (0, 1, 0)]%Q) 0 0
           {| Halfedge.vertex := 0; Halfedge.twin := 1; Halfedge.next := Some 2;
              Halfedge.prev := Some 4; Halfedge.face := Some 0 |}
           {| Halfedge.vertex := 0; Halfedge.twin := 1; Halfedge.next := Some 2;
              Halfedge.prev := Some 4; Halfedge.face := Some 0 |}
           {| Halfedge.vertex := 1; Halfedge.twin := 0; Halfedge.next := None;
              Halfedge.prev := None; Halfedge.face := None |}
           {| Halfedge.vertex := 1; Halfedge.twin := 0; Halfedge.next := None;
              Halfedge.prev := None; Halfedge.face := None |}).
  - vm_compute. reflexivity.
  - vm_compute. reflexivity.
  - vm_compute. reflexivity.
  - vm_compute. reflexivity.
  - reflexivity.
  - reflexivity.
  - simpl. lia.
Defined.
